(** * Container.js: a microscopic dependency-injection container

    A shallow embedding of [src/Container.js] and the properties of its
    registration and resolution operations.

    The container owns three JavaScript [Map]s ([cache], [services],
    [parameters]).  Methods are embedded in a state-and-exception monad
    over the container, the heap of objects created by [new] and the
    constructor bodies of the client, which [new] runs; the recursion
    between [fetch] and [resolve] is bounded by a call-depth budget, so
    that a cyclic dependency graph shows up as the absence of a result
    at every budget. *)

From stdpp Require Import base option list strings numbers relations.

Open Scope string_scope.

(** ** JavaScript values *)

(** A function object: its identity, the value of its [name] property and
    whether it may be used with [new] (arrow functions may not). *)
Record func := Func { fn_id : nat; fn_name : string; fn_new : bool }.

(** The values the container sees.  Numbers are the integer-valued ones;
    objects are known by their address in the heap. *)
Inductive val :=
| VUndefined
| VNull
| VBool (b : bool)
| VNum (z : Z)
| VStr (s : string)
| VFun (f : func)
| VObj (a : nat).

#[global] Instance func_eq_dec : EqDecision func.
Proof. solve_decision. Defined.

#[global] Instance val_eq_dec : EqDecision val.
Proof. solve_decision. Defined.

(** [typeof v] *)
Definition typeof (v : val) : string :=
  match v with
  | VUndefined => "undefined"
  | VNull => "object"
  | VBool _ => "boolean"
  | VNum _ => "number"
  | VStr _ => "string"
  | VFun _ => "function"
  | VObj _ => "object"
  end.

(** [x === y]: on these values strict equality is sameness of the value,
    functions and objects being compared by identity. *)
Definition strict_equal (x y : val) : bool := bool_decide (x = y).

(** Truthiness, as tested by [if] and [&&]. *)
Definition truthy (v : val) : bool :=
  match v with
  | VUndefined | VNull => false
  | VBool b => b
  | VNum z => negb (Z.eqb z 0)
  | VStr s => negb (bool_decide (s = ""))
  | VFun _ | VObj _ => true
  end.

(** A default parameter [x = d] takes its default exactly when the
    argument is [undefined] (or missing). *)
Definition default_arg (v d : val) : val :=
  match v with VUndefined => d | _ => v end.

(** ** The JavaScript [Map], keyed by strings

    A [Map] iterates in insertion order, and [set] on a key that is
    already present replaces the value where it stands. *)
Module JsMap.

Definition t (V : Type) : Type := list (string * V).

Definition empty {V} : t V := [].

Fixpoint get {V} (m : t V) (k : string) : option V :=
  match m with
  | [] => None
  | (k', v) :: m' => if decide (k' = k) then Some v else get m' k
  end.

Definition has {V} (m : t V) (k : string) : bool := bool_decide (is_Some (get m k)).

Fixpoint set {V} (m : t V) (k : string) (v : V) : t V :=
  match m with
  | [] => [(k, v)]
  | (k', v') :: m' =>
      if decide (k' = k) then (k, v) :: m' else (k', v') :: set m' k v
  end.

(** [Array.from(m.values())] *)
Definition values {V} (m : t V) : list V := m.*2.

End JsMap.

(** ** Container state *)

(** A service definition as [resolve] reads it.  [shared] is what the
    property read [definition.shared] yields: [VUndefined] for an object
    that has no such property. *)
Record definition := Definition_ {
  classname : val;
  name : string;
  dependencies : list string;
  tag : val;
  shared : val;
}.

#[global] Instance definition_eq_dec : EqDecision definition.
Proof. solve_decision. Defined.

Record container := Container {
  cache : JsMap.t val;
  services : JsMap.t definition;
  parameters : JsMap.t val;
}.

(** An object made by [new Constructor(...args)]. *)
Record instance := Instance_ { inst_class : func; inst_args : list val }.

(** How the body of a constructor ends.  The body is code of the
    container's client: it runs to its end (or returns a primitive, which
    [new] ignores), it returns a value of its own, or it throws. *)
Inductive completion :=
| Completes
| Returns (o : val)
| Throws (thrown : val).

(** The container [this], the heap of constructed objects, and the
    constructor bodies of the client's program: how the body of a
    function ends when [new] runs it with given arguments on a given
    heap (the heap records every construction so far, so that a body may
    depend on what was constructed before).  A body is taken to leave
    the container alone: it does not call the container it is being
    constructed for. *)
Record world := MkWorld {
  this : container;
  heap : list instance;
  bodies : func -> list val -> list instance -> completion;
}.

(** Constructors with an ordinary body, which initialises the new object
    and runs to its end. *)
Definition ordinary : func -> list val -> list instance -> completion :=
  fun _ _ _ => Completes.

(** A world of a client all of whose constructors are ordinary. *)
Definition World (c : container) (h : list instance) : world :=
  MkWorld c h ordinary.

(** Objects and functions, as opposed to primitives. *)
Definition is_object (v : val) : bool :=
  match v with
  | VObj _ | VFun _ => true
  | _ => false
  end.

(** The value of [new F(...)] where the object under construction is at
    address [a]: that object, unless the body returns an object of its
    own. *)
Definition construction_result (c : completion) (a : nat) : val :=
  match c with
  | Returns o => if is_object o then o else VObj a
  | _ => VObj a
  end.

Definition with_cache (c : container) (m : JsMap.t val) : container :=
  Container m (services c) (parameters c).
Definition with_services (c : container) (m : JsMap.t definition) : container :=
  Container (cache c) m (parameters c).
Definition with_parameters (c : container) (m : JsMap.t val) : container :=
  Container (cache c) (services c) m.

(** ** Errors and the method monad *)

Inductive error :=
| ContainerDuplicateError (key kind : string)
| ContainerNotFoundError (key : string)
| ReferenceError (identifier : string)
| TypeError (culprit : val)
| Thrown (thrown : val).

Inductive outcome (A : Type) :=
| Return (a : A)
| Throw (e : error).
Arguments Return {A} a.
Arguments Throw {A} e.

(** A method body: from a world to an outcome and the world it leaves,
    or to nothing when the call-depth budget is exhausted. *)
Definition M (A : Type) : Type := world -> option (outcome A * world).

Definition ret {A} (a : A) : M A := fun w => Some (Return a, w).
Definition throw {A} (e : error) : M A := fun w => Some (Throw e, w).
Definition bind {A B} (m : M A) (k : A -> M B) : M B := fun w =>
  match m w with
  | None => None
  | Some (Throw e, w') => Some (Throw e, w')
  | Some (Return a, w') => k a w'
  end.
Definition overflow {A} : M A := fun _ => None.
Definition get_this : M container := fun w => Some (Return (this w), w).
Definition set_this (c : container) : M unit := fun w =>
  Some (Return tt, MkWorld c (heap w) (bodies w)).

Notation "'do' x <- m ; k" := (bind m (fun x => k))
  (at level 10, x name, m at level 100, k at level 200).
Notation "m ;; k" := (bind m (fun _ => k))
  (at level 100, k at level 200, right associativity).

(** [array.map(f)]: [f] is called on the elements from left to right. *)
Fixpoint array_map {A B} (f : A -> M B) (l : list A) : M (list B) :=
  match l with
  | [] => ret []
  | x :: l' => do y <- f x; do ys <- array_map f l'; ret (y :: ys)
  end.

(** [new Constructor(...args)].  A value that is no constructor makes
    [new] throw a [TypeError].  Otherwise the new object is allocated,
    recording its class and the arguments, and the body of the
    constructor runs: what it throws comes out of [new], an object it
    returns is the value of [new], and else the new object is. *)
Definition new (Constructor : val) (args : list val) : M val := fun w =>
  match Constructor with
  | VFun f =>
      if fn_new f
      then
        let a := length (heap w) in
        let w' := MkWorld (this w) (heap w ++ [Instance_ f args]) (bodies w) in
        match bodies w f args (heap w) with
        | Throws x => Some (Throw (Thrown x), w')
        | c => Some (Return (construction_result c a), w')
        end
      else Some (Throw (TypeError Constructor), w)
  | _ => Some (Throw (TypeError Constructor), w)
  end.

(** ** The class [Container] *)

Section Container.

(** [resolve] mentions an identifier [name] that no enclosing scope of
    the module binds: it denotes the property [name] of the global
    object, a string where there is one (a browser window) and an
    unbound reference otherwise. *)
Variable global_name : option string.

Definition read_global_name : M string :=
  match global_name with
  | Some s => ret s
  | None => throw (ReferenceError "name")
  end.

(** [constructor()] *)
Definition constructor : container :=
  Container JsMap.empty JsMap.empty JsMap.empty.

(** [static isConstructor(classname)] *)
Definition isConstructor (classname : val) : bool :=
  bool_decide (typeof classname = "function")
  && match classname with
     | VFun f => negb (strict_equal (VStr (fn_name f)) (VStr ""))
     | _ => false
     end.

(** [ensureUniqueness(name)] *)
Definition ensureUniqueness (name : string) : M unit :=
  do c <- get_this;
  if JsMap.has (parameters c) name
  then throw (ContainerDuplicateError name "parameter")
  else if JsMap.has (services c) name
  then throw (ContainerDuplicateError name "service")
  else ret tt.

(** [registerDefinition(name, classname, dependencies = [], tag = null,
    shared = true)].  The object literal stored is
    [{ classname, name, dependencies, tag }]. *)
Definition registerDefinition (name : string) (classname : val)
    (dependencies : option (list string)) (tag shared : val) : M unit :=
  let dependencies := default [] dependencies in
  let tag := default_arg tag VNull in
  let shared := default_arg shared (VBool true) in
  ensureUniqueness name;;
  do c <- get_this;
  set_this (with_services c
    (JsMap.set (services c) name
       (Definition_ classname name dependencies tag VUndefined))).

(** [registerParameter(name, value)] *)
Definition registerParameter (name : string) (value : val) : M unit :=
  ensureUniqueness name;;
  do c <- get_this;
  set_this (with_parameters c (JsMap.set (parameters c) name value)).

(** [register(name, value, dependencies = [], tag = null, shared = true)] *)
Definition register (name : string) (value : val)
    (dependencies : option (list string)) (tag shared : val) : M unit :=
  let dependencies := default [] dependencies in
  let tag := default_arg tag VNull in
  let shared := default_arg shared (VBool true) in
  if isConstructor value
  then registerDefinition name value (Some dependencies) tag shared
  else registerParameter name value.

(** [resolve(definition)], over the bound method [this.fetch]. *)
Definition resolve (this_fetch : string -> M val) (definition : definition)
    : M val :=
  let shared := shared definition in
  do hit <- (if truthy shared
             then do name <- read_global_name;
                  do c <- get_this;
                  ret (JsMap.has (cache c) name)
             else ret false);
  if hit
  then do name <- read_global_name;
       do c <- get_this;
       ret (default VUndefined (JsMap.get (cache c) name))
  else
    do dependencies <- array_map this_fetch (dependencies definition);
    let Constructor := classname definition in
    do service <- new Constructor dependencies;
    (if truthy shared
     then do c <- get_this;
          set_this (with_cache c (JsMap.set (cache c) (name definition) service))
     else ret tt);;
    ret service.

(** [fetch(name)].  [depth] bounds the nesting of [fetch] calls.  Under
    [services.has(name)] the [get] finds a definition; were it to yield
    [undefined], [resolve] would fail reading a property of it. *)
Fixpoint fetch (depth : nat) (name : string) : M val :=
  match depth with
  | 0 => overflow
  | S depth' =>
      do c <- get_this;
      if JsMap.has (services c) name
      then match JsMap.get (services c) name with
           | Some definition => resolve (fetch depth') definition
           | None => throw (TypeError VUndefined)
           end
      else if JsMap.has (parameters c) name
      then ret (default VUndefined (JsMap.get (parameters c) name))
      else throw (ContainerNotFoundError name)
  end.

(** The arrow function [definition => definition.tag === tag]. *)
Definition has_tag (t : val) (definition : definition) : Prop :=
  strict_equal (tag definition) t = true.

#[global] Instance has_tag_dec t d : Decision (has_tag t d).
Proof. unfold has_tag. apply _. Defined.

(** [getTaggedService(tag)] *)
Definition getTaggedService (tag : val) : M (list definition) :=
  do c <- get_this;
  ret (filter (has_tag tag) (JsMap.values (services c))).

End Container.


(** ** Calls and reachable worlds *)

(** The three ways to register something under a key. *)
Inductive registration :=
| ByRegister (value : val) (dependencies : option (list string)) (tag shared : val)
| ByRegisterDefinition (classname : val) (dependencies : option (list string))
    (tag shared : val)
| ByRegisterParameter (value : val).

Definition perform (name : string) (r : registration) : M unit :=
  match r with
  | ByRegister v ds t s => register name v ds t s
  | ByRegisterDefinition v ds t s => registerDefinition name v ds t s
  | ByRegisterParameter v => registerParameter name v
  end.

(** The registry a registration writes to, as [ensureUniqueness] names
    it. *)
Definition registry_of (r : registration) : string :=
  match r with
  | ByRegister v _ _ _ => if isConstructor v then "service" else "parameter"
  | ByRegisterDefinition _ _ _ _ => "service"
  | ByRegisterParameter _ => "parameter"
  end.

(** The calls a client can make on a container. *)
Inductive call :=
| CallRegistration (name : string) (r : registration)
| CallEnsureUniqueness (name : string)
| CallFetch (depth : nat) (name : string)
| CallGetTaggedService (tag : val).

(** The world a method leaves, whether it returns or throws. *)
Definition after {A} (m : M A) (w : world) : option world :=
  match m w with
  | Some (_, w') => Some w'
  | None => None
  end.

Definition exec (global_name : option string) (k : call) : world -> option world :=
  match k with
  | CallRegistration n r => after (perform n r)
  | CallEnsureUniqueness n => after (ensureUniqueness n)
  | CallFetch depth n => after (fetch global_name depth n)
  | CallGetTaggedService t => after (getTaggedService t)
  end.

(** One step of a client: a call on the container that comes back, or an
    object the client creates itself. *)
Inductive step (global_name : option string) : world -> world -> Prop :=
| step_call k w w' :
    exec global_name k w = Some w' -> step global_name w w'
| step_client_new f args w :
    step global_name w
      (MkWorld (this w) (heap w ++ [Instance_ f args]) (bodies w)).

(** The worlds a client can bring about from [new Container()], whatever
    objects it has and whatever its constructors do. *)
Definition reachable (global_name : option string) (w : world) : Prop :=
  exists h b, rtc (step global_name) (MkWorld constructor h b) w.

(** The parameter and service keys never overlap. *)
Definition disjoint_registries (c : container) : Prop :=
  forall k, ~ (JsMap.has (parameters c) k = true /\ JsMap.has (services c) k = true).

(** [resolve] answers [definition] from the cache. *)
Definition cache_hit (global_name : option string) (c : container)
    (definition : definition) : bool :=
  truthy (shared definition)
  && match global_name with
     | Some g => JsMap.has (cache c) g
     | None => false
     end.

(** The dependency keys [ds] are fetched one after the other, from left
    to right, each fetch returning the value at the same position of
    [vs]. *)
Inductive fetched_in_order (f : string -> M val)
  : world -> list string -> list val -> world -> Prop :=
| fetched_nil w : fetched_in_order f w [] [] w
| fetched_cons w d v w1 ds vs w2 :
    f d w = Some (Return v, w1) ->
    fetched_in_order f w1 ds vs w2 ->
    fetched_in_order f w (d :: ds) (v :: vs) w2.

(** What a [fetch] may do to the world: the two registries stay as they
    are, no cache key disappears, and the heap only grows at its end. *)
Definition fetch_frame (w w' : world) : Prop :=
  parameters (this w') = parameters (this w)
  /\ services (this w') = services (this w)
  /\ (forall k, JsMap.has (cache (this w)) k = true ->
                JsMap.has (cache (this w')) k = true)
  /\ heap w `prefix_of` heap w'
  /\ bodies w' = bodies w.

(** Every stored definition lacks the [shared] property and carries the
    key it is stored under. *)
Definition stored_definitions_plain (c : container) : Prop :=
  forall k d, JsMap.get (services c) k = Some d ->
              shared d = VUndefined /\ name d = k.

(** The world after a registration that went through: one entry more,
    under a key that neither registry had. *)
Inductive registered : world -> world -> Prop :=
| registered_service n d w :
    JsMap.has (parameters (this w)) n = false ->
    JsMap.has (services (this w)) n = false ->
    shared d = VUndefined -> name d = n ->
    registered w
      (MkWorld (with_services (this w) (JsMap.set (services (this w)) n d))
         (heap w) (bodies w))
| registered_parameter n v w :
    JsMap.has (parameters (this w)) n = false ->
    JsMap.has (services (this w)) n = false ->
    registered w
      (MkWorld (with_parameters (this w) (JsMap.set (parameters (this w)) n v))
         (heap w) (bodies w)).

(** What every step of a client keeps: the entries of the two
    registries, the objects of the heap and the client's program. *)
Definition extends (w w' : world) : Prop :=
  (forall n v, JsMap.get (parameters (this w)) n = Some v ->
               JsMap.get (parameters (this w')) n = Some v)
  /\ (forall n d, JsMap.get (services (this w)) n = Some d ->
                  JsMap.get (services (this w')) n = Some d)
  /\ heap w `prefix_of` heap w'
  /\ bodies w' = bodies w.

(** Where no stored definition has a [shared] property, a method leaves
    the container as it found it. *)
Definition plain_same (w w' : world) : Prop :=
  stored_definitions_plain (this w) -> this w' = this w.

(** A client making the calls [ks] one after the other. *)
Fixpoint run_calls (global_name : option string) (ks : list call) (w : world)
    : option world :=
  match ks with
  | [] => Some w
  | k :: ks' =>
      match exec global_name k w with
      | Some w' => run_calls global_name ks' w'
      | None => None
      end
  end.

(** ** The scenario of the documentation

    A parameter [db.host], a service [Logger] tagged [core] and a service
    [App] that depends on both. *)
Definition Logger : val := VFun (Func 1 "Logger" true).
Definition App : val := VFun (Func 2 "App" true).

Definition fresh_world : world := World constructor [].

Definition scenario_calls : list call :=
  [ CallRegistration "db.host"
      (ByRegister (VStr "localhost") None VUndefined VUndefined);
    CallRegistration "Logger"
      (ByRegister Logger None (VStr "core") VUndefined);
    CallRegistration "App"
      (ByRegister App (Some ["Logger"; "db.host"]) VUndefined VUndefined) ].

Definition scenario : world :=
  default fresh_world (run_calls None scenario_calls fresh_world).

(** A service registered as transient. *)
Definition Mailer : val := VFun (Func 3 "Mailer" true).

Definition transient_world : world :=
  World (Container []
           [("Mailer", Definition_ Mailer "Mailer" [] VNull VUndefined)] [])
        [].

(** Keys whose resolution needs nothing that is missing: parameters, and
    services of a class that [new] accepts whose dependencies are such
    keys again.  A key on a dependency cycle is not among them. *)
Inductive resolvable (c : container) : string -> Prop :=
| resolvable_parameter n :
    JsMap.has (services c) n = false ->
    JsMap.has (parameters c) n = true ->
    resolvable c n
| resolvable_service n d f :
    JsMap.get (services c) n = Some d ->
    classname d = VFun f -> fn_new f = true ->
    (forall k, k ∈ dependencies d -> resolvable c k) ->
    resolvable c n.

(** [g] returns whatever [f] returns. *)
Definition fetch_le (f g : string -> M val) : Prop :=
  forall k w r, f k w = Some r -> g k w = Some r.

(** Two services that depend on each other. *)
Definition cyclic_world : world :=
  World (Container []
           [("A", Definition_ (VFun (Func 4 "A" true)) "A" ["B"] VNull VUndefined);
            ("B", Definition_ (VFun (Func 5 "B" true)) "B" ["A"] VNull VUndefined)]
           [])
        [].

(** [new] accepts the value as a constructor. *)
Definition constructible (v : val) : bool :=
  match v with
  | VFun f => fn_new f
  | _ => false
  end.

(** A service whose second dependency is registered nowhere, and a
    service whose class is a named arrow function. *)
Definition Handler : val := VFun (Func 6 "handler" false).

Definition faulty_world : world :=
  World (Container []
           [("Logger", Definition_ Logger "Logger" [] VNull VUndefined);
            ("Report", Definition_ App "Report" ["Logger"; "smtp.host"; "db.host"]
                         VNull VUndefined);
            ("Hook", Definition_ Handler "Hook" ["db.host"] VNull VUndefined)]
           [("db.host", VStr "localhost")])
        [].

(** No key occurs twice in the service registry, and no stored
    definition has the tag [undefined]. *)
Definition services_well_keyed (c : container) : Prop :=
  NoDup (services c).*1
  /\ forall k d, JsMap.get (services c) k = Some d -> tag d <> VUndefined.


(** What a [fetch] may do to the cache: an entry keeps its value unless
    its key is the name of a stored definition object with a truthy
    [shared]. *)
Definition cache_frame (w w' : world) : Prop :=
  services (this w') = services (this w)
  /\ forall k v, JsMap.get (cache (this w)) k = Some v ->
       JsMap.get (cache (this w')) k = Some v
       \/ exists d, d ∈ JsMap.values (services (this w))
                    /\ truthy (shared d) = true /\ name d = k.


(** The registration [r] stores the class [c], with the dependency keys
    [ds] and the [shared] argument [s], as a service definition: through
    [registerDefinition], or through [register] for a value that
    [isConstructor] accepts. *)
Definition registers_service (r : registration) (c : val)
    (ds : option (list string)) (s : val) : Prop :=
  (exists tg, r = ByRegisterDefinition c ds tg s)
  \/ (exists tg, r = ByRegister c ds tg s /\ isConstructor c = true).

(** No constructor body throws. *)
Definition never_throws
    (b : func -> list val -> list instance -> completion) : Prop :=
  forall f args h x, b f args h <> Throws x.

(** A client with one object of its own and a class [Single] whose
    constructor returns that object; the class is registered with
    [shared = false]. *)
Definition Single : val := VFun (Func 9 "Single" true).

Definition singleton_bodies : func -> list val -> list instance -> completion :=
  fun f _ _ => if decide (fn_id f = 9) then Returns (VObj 0) else Completes.

Definition singleton_world : world :=
  MkWorld constructor [Instance_ (Func 8 "Object" true) []] singleton_bodies.

Definition singleton_registered : world :=
  MkWorld (Container []
             [("Single", Definition_ Single "Single" [] VNull VUndefined)] [])
          [Instance_ (Func 8 "Object" true) []] singleton_bodies.

(** The scenario with one more service, registered with [shared = false],
    that depends on a service and on a parameter. *)
Definition mailer_world : world :=
  MkWorld (with_services (this scenario)
             (services (this scenario) ++
              [("Mailer", Definition_ Mailer "Mailer" ["Logger"; "db.host"]
                            VNull VUndefined)])%list)
          [] ordinary.

(** A method that relates every world it is called in to the world it
    leaves, whether it returns or throws. *)
Definition respects {A} (R : relation world) (m : M A) : Prop :=
  forall w r w', m w = Some (r, w') -> R w w'.

(** * Properties *)

(** ** The [Map] *)

Lemma has_true {V} (m : JsMap.t V) k :
  JsMap.has m k = true <-> is_Some (JsMap.get m k).
Proof. unfold JsMap.has. apply bool_decide_eq_true. Qed.

Lemma has_false {V} (m : JsMap.t V) k :
  JsMap.has m k = false <-> JsMap.get m k = None.
Proof.
  unfold JsMap.has. rewrite bool_decide_eq_false, eq_None_not_Some. done.
Qed.

Lemma get_set_eq {V} (m : JsMap.t V) k v :
  JsMap.get (JsMap.set m k v) k = Some v.
Proof.
  induction m as [|[k' v'] m IH]; simpl.
  - by rewrite decide_True.
  - destruct (decide (k' = k)) as [->|Hne]; simpl.
    + by rewrite decide_True.
    + by rewrite decide_False.
Qed.

Lemma get_set_ne {V} (m : JsMap.t V) k k' v :
  k <> k' -> JsMap.get (JsMap.set m k v) k' = JsMap.get m k'.
Proof.
  intros Hne. induction m as [|[k0 v0] m IH]; simpl.
  - by rewrite decide_False.
  - destruct (decide (k0 = k)) as [->|Hk0]; simpl.
    + by rewrite !decide_False.
    + destruct (decide (k0 = k')); done.
Qed.

Lemma has_set {V} (m : JsMap.t V) k k' v :
  JsMap.has (JsMap.set m k v) k' = bool_decide (k = k') || JsMap.has m k'.
Proof.
  destruct (decide (k = k')) as [->|Hne].
  - rewrite bool_decide_eq_true_2 by done. simpl.
    apply has_true. rewrite get_set_eq. eauto.
  - rewrite bool_decide_eq_false_2 by done. simpl.
    unfold JsMap.has. by rewrite get_set_ne.
Qed.

(** A key that is not yet present goes to the end of the iteration
    order. *)
Lemma set_fresh {V} (m : JsMap.t V) k v :
  JsMap.get m k = None -> JsMap.set m k v = (m ++ [(k, v)])%list.
Proof.
  induction m as [|[k' v'] m IH]; simpl; [done|].
  destruct (decide (k' = k)); [done|]. intros H. by rewrite IH.
Qed.

Lemma get_Some_values {V} (m : JsMap.t V) k v :
  JsMap.get m k = Some v -> v ∈ JsMap.values m.
Proof.
  unfold JsMap.values. induction m as [|[k' v'] m IH]; simpl; [done|].
  destruct (decide (k' = k)); intros H.
  - injection H as ->. left.
  - right. by apply IH.
Qed.

(** ** The monad *)

Lemma bind_Some {A B} (m : M A) (k : A -> M B) w r w' :
  bind m k w = Some (r, w') ->
  (exists e, m w = Some (Throw e, w') /\ r = Throw e)
  \/ (exists a w1, m w = Some (Return a, w1) /\ k a w1 = Some (r, w')).
Proof.
  unfold bind. destruct (m w) as [[[a|e] w1]|]; [|intros [= <- <-]|done].
  - intros H. right. eauto.
  - left. eauto.
Qed.

(** Invert the monadic steps found among the hypotheses. *)
Ltac inv_M :=
  repeat match goal with
  | H : bind _ _ _ = Some _ |- _ =>
      apply bind_Some in H as [(? & H & ?)|(? & ? & ? & H)]; simplify_eq
  | H : ret _ _ = Some _ |- _ => unfold ret in H; simplify_eq
  | H : throw _ _ = Some _ |- _ => unfold throw in H; simplify_eq
  | H : get_this _ = Some _ |- _ => unfold get_this in H; simplify_eq
  | H : set_this _ _ = Some _ |- _ => unfold set_this in H; simplify_eq
  | H : overflow _ = Some _ |- _ => discriminate H
  | H : Some _ = Some _ |- _ => simplify_eq
  end.

(** ** Methods and world relations *)

Section Respects.

Context (R : relation world) `{!PreOrder R}.

Lemma respects_ret {A} (a : A) : respects R (ret a).
Proof. intros w r w' H. inv_M. done. Qed.

Lemma respects_throw {A} e : respects R (throw (A := A) e).
Proof. intros w r w' H. inv_M. done. Qed.

Lemma respects_get_this : respects R get_this.
Proof. intros w r w' H. inv_M. done. Qed.

Lemma respects_bind {A B} (m : M A) (k : A -> M B) :
  respects R m -> (forall a, respects R (k a)) -> respects R (bind m k).
Proof.
  intros Hm Hk w r w' H. inv_M.
  - by eapply Hm.
  - etrans; [by eapply Hm|by eapply Hk].
Qed.

Lemma respects_array_map {A B} (f : A -> M B) l :
  (forall x, respects R (f x)) -> respects R (array_map f l).
Proof.
  intros Hf. induction l as [|x l IH]; simpl.
  - apply respects_ret.
  - apply respects_bind; [apply Hf|]. intros y.
    apply respects_bind; [apply IH|]. intros ys. apply respects_ret.
Qed.

End Respects.

(** Walk through the binds and conditionals of a method body. *)
Ltac respects_step :=
  first
    [ by apply respects_ret; apply _
    | by apply respects_throw; apply _
    | by apply respects_get_this; apply _
    | apply respects_bind; [apply _| |intros ?]
    | match goal with
      | |- respects _ (if ?b then _ else _) => destruct b
      | |- respects _ (match ?o with Some _ => _ | None => _ end) => destruct o
      end ].

(** ** The frame of [fetch] *)

#[local] Instance fetch_frame_preorder : PreOrder fetch_frame.
Proof.
  split.
  - intros w. by repeat split.
  - intros w1 w2 w3 (Hp1 & Hs1 & Hc1 & Hh1 & Hb1) (Hp2 & Hs2 & Hc2 & Hh2 & Hb2).
    repeat split; [congruence|congruence|auto|by etrans|congruence].
Qed.

(** The two ways of [new]: no constructor and nothing done, or an object
    allocated and the body run. *)
Lemma new_inv Constructor args w r w' :
  new Constructor args w = Some (r, w') ->
  (constructible Constructor = false
   /\ r = Throw (TypeError Constructor) /\ w' = w)
  \/ (exists f, Constructor = VFun f /\ fn_new f = true
       /\ w' = MkWorld (this w) (heap w ++ [Instance_ f args]) (bodies w)
       /\ ((exists x, bodies w f args (heap w) = Throws x
                      /\ r = Throw (Thrown x))
           \/ ((forall x, bodies w f args (heap w) <> Throws x)
               /\ r = Return (construction_result (bodies w f args (heap w))
                               (length (heap w)))))).
Proof.
  unfold new. destruct Constructor as [| | | | |f|]; try (intros [= <- <-]; by left).
  simpl. destruct (fn_new f) eqn:Hnew; [|intros [= <- <-]; by left].
  intros H. right. exists f. split; [done|]. split; [done|].
  destruct (bodies w f args (heap w)) as [|o|x]; injection H as <- <-;
    (split; [done|]); eauto.
Qed.

Lemma new_frame Constructor args : respects fetch_frame (new Constructor args).
Proof.
  intros w r w' H.
  apply new_inv in H as [(_ & _ & ->)|(f & _ & _ & -> & _)]; [reflexivity|].
  repeat split; simpl; auto. by apply prefix_app_r.
Qed.

Lemma cache_set_frame k v :
  respects fetch_frame
    (do c <- get_this; set_this (with_cache c (JsMap.set (cache c) k v))).
Proof.
  intros w r w' H. inv_M. repeat split; simpl; auto.
  intros k' Hk'. rewrite has_set, Hk'. apply orb_true_r.
Qed.

Lemma resolve_frame global_name this_fetch definition :
  (forall k, respects fetch_frame (this_fetch k)) ->
  respects fetch_frame (resolve global_name this_fetch definition).
Proof.
  intros Hf. unfold resolve, read_global_name.
  repeat first
    [ apply cache_set_frame
    | apply new_frame
    | by apply respects_array_map; [apply _|]
    | respects_step ].
Qed.

Lemma fetch_respects_frame global_name depth n :
  respects fetch_frame (fetch global_name depth n).
Proof.
  revert n. induction depth as [|depth IH]; intros n; simpl.
  - intros w r w' H. discriminate H.
  - repeat first [ by apply resolve_frame | respects_step ].
Qed.

(** ** Registration *)

Lemma ensureUniqueness_result n w :
  ensureUniqueness n w =
  Some (if JsMap.has (parameters (this w)) n
        then Throw (ContainerDuplicateError n "parameter")
        else if JsMap.has (services (this w)) n
        then Throw (ContainerDuplicateError n "service")
        else Return tt, w).
Proof.
  unfold ensureUniqueness, bind, get_this.
  by repeat destruct (JsMap.has _ _).
Qed.

Lemma registerDefinition_result n v ds t s w :
  registerDefinition n v ds t s w =
  if JsMap.has (parameters (this w)) n
  then Some (Throw (ContainerDuplicateError n "parameter"), w)
  else if JsMap.has (services (this w)) n
  then Some (Throw (ContainerDuplicateError n "service"), w)
  else Some (Return tt,
             MkWorld (with_services (this w)
                        (JsMap.set (services (this w)) n
                           (Definition_ v n (default [] ds) (default_arg t VNull)
                              VUndefined)))
                     (heap w) (bodies w)).
Proof.
  unfold registerDefinition, bind. rewrite ensureUniqueness_result.
  by repeat destruct (JsMap.has _ _).
Qed.

Lemma registerParameter_result n v w :
  registerParameter n v w =
  if JsMap.has (parameters (this w)) n
  then Some (Throw (ContainerDuplicateError n "parameter"), w)
  else if JsMap.has (services (this w)) n
  then Some (Throw (ContainerDuplicateError n "service"), w)
  else Some (Return tt,
             MkWorld (with_parameters (this w)
                        (JsMap.set (parameters (this w)) n v))
                     (heap w) (bodies w)).
Proof.
  unfold registerParameter, bind. rewrite ensureUniqueness_result.
  by repeat destruct (JsMap.has _ _).
Qed.

Lemma register_result n v ds t s w :
  register n v ds t s w =
  if isConstructor v
  then registerDefinition n v ds t s w
  else registerParameter n v w.
Proof.
  unfold register. destruct (isConstructor v); [|done].
  rewrite !registerDefinition_result. by destruct ds, t.
Qed.

Lemma registerDefinition_stored n c ds t s w w' :
  registerDefinition n c ds t s w = Some (Return tt, w') ->
  JsMap.get (services (this w')) n
  = Some (Definition_ c n (default [] ds) (default_arg t VNull) VUndefined).
Proof.
  rewrite registerDefinition_result.
  destruct (JsMap.has (parameters (this w)) n); [done|].
  destruct (JsMap.has (services (this w)) n); [done|].
  intros [= <-]. simpl. apply get_set_eq.
Qed.

(** A registration either throws and leaves the world as it was, or
    returns having added one entry under a fresh key. *)
Lemma perform_cases n r w o w' :
  perform n r w = Some (o, w') ->
  (exists kind, o = Throw (ContainerDuplicateError n kind) /\ w' = w
     /\ (JsMap.has (parameters (this w)) n = true
         \/ JsMap.has (services (this w)) n = true))
  \/ (o = Return tt /\ registered w w').
Proof.
  intros H.
  match goal with |- ?G =>
    assert (Hd : forall v ds t s,
      registerDefinition n v ds t s w = Some (o, w') -> G);
    [|assert (Hv : forall v, registerParameter n v w = Some (o, w') -> G)]
  end.
  { intros v ds t s. rewrite registerDefinition_result.
    destruct (JsMap.has (parameters _) n) eqn:Hp;
      [|destruct (JsMap.has (services _) n) eqn:Hs]; intros [= <- <-].
    - left. eauto.
    - left. eauto.
    - right. split; [done|]. by constructor. }
  { intros v. rewrite registerParameter_result.
    destruct (JsMap.has (parameters _) n) eqn:Hp;
      [|destruct (JsMap.has (services _) n) eqn:Hs]; intros [= <- <-].
    - left. eauto.
    - left. eauto.
    - right. split; [done|]. by constructor. }
  destruct r as [v ds t s|v ds t s|v]; simpl in H; [|by eapply Hd|by eapply Hv].
  rewrite register_result in H.
  destruct (isConstructor v); [by eapply Hd|by eapply Hv].
Qed.

Lemma exec_cases global_name k w w' :
  exec global_name k w = Some w' ->
  w' = w \/ registered w w'
  \/ exists depth n o, fetch global_name depth n w = Some (o, w').
Proof.
  destruct k as [n r|n|depth n|t]; simpl; unfold after.
  - destruct (perform n r w) as [[o w1]|] eqn:H; [|done]. intros [= <-].
    apply perform_cases in H as [(? & _ & -> & _)|[_ H]]; auto.
  - rewrite ensureUniqueness_result. intros [= <-]. auto.
  - destruct (fetch _ _ _ _) as [[o w1]|] eqn:H; [|done]. intros [= <-].
    right. right. eauto.
  - unfold getTaggedService, bind, get_this, ret. intros [= <-]. auto.
Qed.

(** ** What the steps of a client keep *)

#[local] Instance extends_preorder : PreOrder extends.
Proof.
  split.
  - intros w. by repeat split.
  - intros w1 w2 w3 (Hp1 & Hs1 & Hh1 & Hb1) (Hp2 & Hs2 & Hh2 & Hb2).
    repeat split; [auto|auto|by etrans|congruence].
Qed.

Lemma frame_extends w w' : fetch_frame w w' -> extends w w'.
Proof.
  intros (Hp & Hs & _ & Hh & Hb). repeat split; [| |done..].
  - intros n v. by rewrite Hp.
  - intros n d. by rewrite Hs.
Qed.

Lemma registered_extends w w' : registered w w' -> extends w w'.
Proof.
  intros [n d w0 Hp Hs _ _|n v w0 Hp Hs]; repeat split; simpl; try done.
  - intros n' d' Hn'. rewrite get_set_ne; [done|]. intros ->.
    apply has_false in Hs. congruence.
  - intros n' v' Hn'. rewrite get_set_ne; [done|]. intros ->.
    apply has_false in Hp. congruence.
Qed.

Lemma step_extends global_name w w' : step global_name w w' -> extends w w'.
Proof.
  intros [k w0 w1 H|f args w0].
  - apply exec_cases in H as [->|[H|(depth & n & o & H)]].
    + reflexivity.
    + by apply registered_extends.
    + by apply fetch_respects_frame, frame_extends in H.
  - repeat split; simpl; auto. by apply prefix_app_r.
Qed.

Lemma steps_extends global_name w w' :
  rtc (step global_name) w w' -> extends w w'.
Proof.
  induction 1 as [|w1 w2 w3 H _ IH]; [reflexivity|].
  etrans; [by eapply step_extends|done].
Qed.

(** ** Registries stay disjoint *)

Lemma registered_disjoint w w' :
  registered w w' ->
  disjoint_registries (this w) -> disjoint_registries (this w').
Proof.
  intros [n d w0 Hp Hs _ _|n v w0 Hp Hs] Hdis k; simpl; rewrite has_set.
  - destruct (decide (n = k)) as [->|Hne].
    + rewrite Hp. by intros [? _].
    + rewrite bool_decide_eq_false_2 by done. apply Hdis.
  - destruct (decide (n = k)) as [->|Hne].
    + rewrite Hs. by intros [_ ?].
    + rewrite bool_decide_eq_false_2 by done. apply Hdis.
Qed.

Lemma frame_disjoint w w' :
  fetch_frame w w' ->
  disjoint_registries (this w) -> disjoint_registries (this w').
Proof.
  intros (Hp & Hs & _) Hdis k. rewrite Hp, Hs. apply Hdis.
Qed.

Lemma step_disjoint global_name w w' :
  step global_name w w' ->
  disjoint_registries (this w) -> disjoint_registries (this w').
Proof.
  intros [k w0 w1 H|f args w0]; [|done].
  apply exec_cases in H as [->|[H|(depth & n & o & H)]].
  - done.
  - by apply registered_disjoint.
  - intros Hdis. eapply frame_disjoint; [by eapply fetch_respects_frame|done].
Qed.

Lemma steps_disjoint global_name w w' :
  rtc (step global_name) w w' ->
  disjoint_registries (this w) -> disjoint_registries (this w').
Proof.
  induction 1 as [|w1 w2 w3 H _ IH]; [done|].
  intros Hdis. by eapply IH, step_disjoint.
Qed.

Lemma constructor_disjoint : disjoint_registries constructor.
Proof. intros k [H _]. discriminate H. Qed.

Lemma reachable_disjoint global_name w :
  reachable global_name w -> disjoint_registries (this w).
Proof.
  intros (h & b & H). eapply steps_disjoint; [done|]. apply constructor_disjoint.
Qed.

(** ** No stored definition is shared, and nothing is ever cached *)

#[local] Instance plain_same_preorder : PreOrder plain_same.
Proof.
  split.
  - by intros w _.
  - intros w1 w2 w3 H1 H2 Hpl. rewrite <- (H1 Hpl). apply H2.
    by rewrite (H1 Hpl).
Qed.

Lemma new_plain_same Constructor args : respects plain_same (new Constructor args).
Proof.
  intros w r w' H _.
  by apply new_inv in H as [(_ & _ & ->)|(f & _ & _ & -> & _)].
Qed.

Lemma resolve_plain_same global_name this_fetch definition :
  shared definition = VUndefined ->
  (forall k, respects plain_same (this_fetch k)) ->
  respects plain_same (resolve global_name this_fetch definition).
Proof.
  intros Hsh Hf. unfold resolve, read_global_name. rewrite Hsh. simpl.
  repeat first
    [ apply new_plain_same
    | by apply respects_array_map; [apply _|]
    | respects_step ].
Qed.

Lemma fetch_plain_same global_name depth n :
  respects plain_same (fetch global_name depth n).
Proof.
  revert n. induction depth as [|depth IH]; intros n w r w' H; simpl in H.
  - discriminate H.
  - apply bind_Some in H as [(e & H & ->)|(c & w1 & Hc & H)];
      unfold get_this in *; simplify_eq.
    destruct (JsMap.has (services (this w1)) n).
    + destruct (JsMap.get (services (this w1)) n) as [d|] eqn:Hd.
      * intros Hpl. eapply resolve_plain_same; [|apply IH|done..].
        by apply (Hpl n d).
      * by inv_M.
    + destruct (JsMap.has (parameters (this w1)) n); by inv_M.
Qed.

Lemma registered_plain w w' :
  registered w w' ->
  stored_definitions_plain (this w) -> stored_definitions_plain (this w').
Proof.
  intros [n d w0 Hp Hs Hsh Hnm|n v w0 Hp Hs] Hpl; [|done].
  intros k d'. simpl. destruct (decide (n = k)) as [->|Hne].
  - rewrite get_set_eq. by intros [= <-].
  - rewrite get_set_ne by done. apply Hpl.
Qed.

Lemma step_plain global_name w w' :
  step global_name w w' ->
  stored_definitions_plain (this w) ->
  stored_definitions_plain (this w') /\ cache (this w') = cache (this w).
Proof.
  intros [k w0 w1 H|f args w0] Hpl; [|done].
  apply exec_cases in H as [->|[H|(depth & n & o & H)]].
  - done.
  - split; [by eapply registered_plain|]. by destruct H.
  - apply fetch_plain_same in H. by rewrite (H Hpl).
Qed.

Lemma steps_plain global_name w w' :
  rtc (step global_name) w w' ->
  stored_definitions_plain (this w) ->
  stored_definitions_plain (this w') /\ cache (this w') = cache (this w).
Proof.
  induction 1 as [|w1 w2 w3 H _ IH]; [done|].
  intros Hpl. destruct (step_plain _ _ _ H Hpl) as [Hpl2 Hc2].
  destruct (IH Hpl2) as [Hpl3 Hc3]. split; [done|congruence].
Qed.

Lemma reachable_plain global_name w :
  reachable global_name w ->
  stored_definitions_plain (this w) /\ cache (this w) = [].
Proof.
  intros (h & b & H). apply steps_plain in H; [done|]. by intros k d.
Qed.

Lemma run_calls_steps global_name ks w w' :
  run_calls global_name ks w = Some w' -> rtc (step global_name) w w'.
Proof.
  revert w. induction ks as [|k ks IH]; intros w; simpl.
  - intros [= <-]. reflexivity.
  - destruct (exec global_name k w) as [w1|] eqn:Hk; [|done].
    intros H. eapply rtc_l; [by eapply step_call|by apply IH].
Qed.

Lemma run_calls_reachable global_name ks w :
  run_calls global_name ks fresh_world = Some w -> reachable global_name w.
Proof. intros H. exists [], ordinary. by eapply run_calls_steps. Qed.

Lemma scenario_reachable : reachable None scenario.
Proof. by apply (run_calls_reachable None scenario_calls). Qed.

(** ** Duplicate keys *)

Lemma perform_throws n r w kind :
  (JsMap.has (parameters (this w)) n = true /\ kind = "parameter")
  \/ (JsMap.has (parameters (this w)) n = false
      /\ JsMap.has (services (this w)) n = true /\ kind = "service") ->
  perform n r w = Some (Throw (ContainerDuplicateError n kind), w).
Proof.
  intros H.
  assert (Hd : forall v ds t s, registerDefinition n v ds t s w
                = Some (Throw (ContainerDuplicateError n kind), w)).
  { intros. rewrite registerDefinition_result.
    destruct H as [[-> ->]|(-> & -> & ->)]; done. }
  assert (Hv : forall v, registerParameter n v w
                = Some (Throw (ContainerDuplicateError n kind), w)).
  { intros. rewrite registerParameter_result.
    destruct H as [[-> ->]|(-> & -> & ->)]; done. }
  destruct r as [v ds t s|v ds t s|v]; simpl; [|done..].
  rewrite register_result. by destruct (isConstructor v).
Qed.

Lemma perform_returns n r w w1 :
  perform n r w = Some (Return tt, w1) ->
  (registry_of r = "parameter"
   /\ JsMap.has (parameters (this w1)) n = true)
  \/ (registry_of r = "service"
      /\ JsMap.has (parameters (this w1)) n = false
      /\ JsMap.has (services (this w1)) n = true).
Proof.
  assert (Hd : forall v ds t s,
    registerDefinition n v ds t s w = Some (Return tt, w1) ->
    JsMap.has (parameters (this w1)) n = false
    /\ JsMap.has (services (this w1)) n = true).
  { intros v ds t s. rewrite registerDefinition_result.
    destruct (JsMap.has (parameters (this w)) n) eqn:Hp; [done|].
    destruct (JsMap.has (services (this w)) n) eqn:Hs; [done|].
    intros [= <-]. simpl. split; [done|].
    rewrite has_set. by rewrite bool_decide_eq_true_2. }
  assert (Hv : forall v,
    registerParameter n v w = Some (Return tt, w1) ->
    JsMap.has (parameters (this w1)) n = true).
  { intros v. rewrite registerParameter_result.
    destruct (JsMap.has (parameters (this w)) n) eqn:Hp; [done|].
    destruct (JsMap.has (services (this w)) n) eqn:Hs; [done|].
    intros [= <-]. simpl. rewrite has_set. by rewrite bool_decide_eq_true_2. }
  destruct r as [v ds t s|v ds t s|v]; simpl.
  - rewrite register_result. destruct (isConstructor v); intros H.
    + right. split; [done|]. by eapply Hd.
    + left. split; [done|]. by eapply Hv.
  - intros H. right. split; [done|]. by eapply Hd.
  - intros H. left. split; [done|]. by eapply Hv.
Qed.

(** C3.  Whatever way a key [n] was registered first (as a parameter, as
    a service, through [register], [registerDefinition] or
    [registerParameter]), a second registration of [n], again in any of
    these ways, throws [ContainerDuplicateError] with the key [n] and the
    name of the registry that holds it since the first registration, and
    the world it leaves is the one the first registration left. *)
Theorem second_registration_rejected n r1 r2 w w1 :
  perform n r1 w = Some (Return tt, w1) ->
  perform n r2 w1
  = Some (Throw (ContainerDuplicateError n (registry_of r1)), w1).
Proof.
  intros H. apply perform_throws.
  apply perform_returns in H as [[-> H]|(-> & Hp & Hs)]; auto.
Qed.

Lemma second_registration_rejected_witness :
  perform "db.host" (ByRegisterParameter (VStr "localhost")) fresh_world
  = Some (Return tt,
          World (Container [] [] [("db.host", VStr "localhost")]) [])
  /\ perform "db.host" (ByRegister Logger None VUndefined VUndefined)
       (World (Container [] [] [("db.host", VStr "localhost")]) [])
     = Some (Throw (ContainerDuplicateError "db.host" "parameter"),
             World (Container [] [] [("db.host", VStr "localhost")]) []).
Proof.
  split; [reflexivity|].
  apply (second_registration_rejected "db.host"
           (ByRegisterParameter (VStr "localhost"))
           (ByRegister Logger None VUndefined VUndefined) fresh_world).
  reflexivity.
Defined.

(** C4.  In every world a client can reach from a new container, no key
    is both a parameter key and a service key; every call keeps it so;
    and a registration under a key that either registry holds throws
    and leaves the world untouched. *)
Theorem registries_stay_disjoint global_name w :
  reachable global_name w ->
  disjoint_registries (this w)
  /\ (forall k w', exec global_name k w = Some w' ->
                   disjoint_registries (this w'))
  /\ (forall n r,
        JsMap.has (parameters (this w)) n = true
        \/ JsMap.has (services (this w)) n = true ->
        exists kind,
          perform n r w = Some (Throw (ContainerDuplicateError n kind), w)).
Proof.
  intros Hw. pose proof (reachable_disjoint _ _ Hw) as Hdis.
  split; [done|split].
  - intros k w' Hk. eapply step_disjoint; [by eapply step_call|done].
  - intros n r Hn.
    destruct (JsMap.has (parameters (this w)) n) eqn:Hp.
    + exists "parameter". apply perform_throws. auto.
    + exists "service". apply perform_throws. destruct Hn; [done|auto].
Qed.

Lemma registries_stay_disjoint_witness :
  reachable None scenario /\ disjoint_registries (this scenario).
Proof.
  split; [apply scenario_reachable|].
  apply (registries_stay_disjoint None scenario). apply scenario_reachable.
Defined.

(** ** Dispatch of [register] *)

Lemma isConstructor_spec v :
  isConstructor v = true <-> exists f, v = VFun f /\ fn_name f <> "".
Proof.
  unfold isConstructor, strict_equal. split.
  - destruct v as [| | | | |f|]; simpl; try done.
    rewrite negb_true_iff, bool_decide_eq_false. intros H.
    exists f. split; [done|]. congruence.
  - intros (f & -> & Hf). simpl.
    rewrite negb_true_iff, bool_decide_eq_false. congruence.
Qed.

(** C8.  [register] stores its value as a service definition exactly when
    [isConstructor] holds of it, that is when it is a function whose
    name is not the empty string; any other value, a function without a
    name among them, is stored as the parameter itself.  (The key being
    free, so that the registration goes through.) *)
Theorem register_dispatch n v ds t s w :
  JsMap.has (parameters (this w)) n = false ->
  JsMap.has (services (this w)) n = false ->
  (isConstructor v = true <-> exists f, v = VFun f /\ fn_name f <> "")
  /\ exists w',
       register n v ds t s w = Some (Return tt, w')
       /\ JsMap.has (services (this w')) n = isConstructor v
       /\ JsMap.has (parameters (this w')) n = negb (isConstructor v)
       /\ if isConstructor v
          then JsMap.get (services (this w')) n
               = Some (Definition_ v n (default [] ds) (default_arg t VNull)
                         VUndefined)
               /\ parameters (this w') = parameters (this w)
          else JsMap.get (parameters (this w')) n = Some v
               /\ services (this w') = services (this w).
Proof.
  intros Hp Hs. split; [apply isConstructor_spec|].
  rewrite register_result, registerDefinition_result, registerParameter_result.
  rewrite Hp, Hs.
  destruct (isConstructor v); eexists; (split; [reflexivity|]); simpl;
    rewrite has_set, get_set_eq, bool_decide_eq_true_2 by done; auto.
Qed.

Lemma register_dispatch_witness :
  JsMap.has (parameters (this fresh_world)) "handler" = false
  /\ JsMap.has (services (this fresh_world)) "handler" = false
  /\ exists w',
       register "handler" (VFun (Func 7 "" true)) None VUndefined VUndefined
         fresh_world = Some (Return tt, w')
       /\ JsMap.get (parameters (this w')) "handler"
          = Some (VFun (Func 7 "" true))
       /\ JsMap.has (services (this w')) "handler" = false.
Proof.
  split; [reflexivity|split; [reflexivity|]].
  destruct (register_dispatch "handler" (VFun (Func 7 "" true)) None
              VUndefined VUndefined fresh_world eq_refl eq_refl)
    as (_ & w' & Hr & Hs & _ & Hg & _).
  exists w'. repeat split; [exact Hr|exact Hg|exact Hs].
Defined.

(** C2.  Whatever [shared] argument [registerDefinition] is called with,
    the record it stores is the literal
    [{ classname, name, dependencies, tag }]: reading [shared] from it
    yields [undefined], so the caller's flag is not kept. *)
Theorem registerDefinition_drops_shared n c ds t s w w' :
  registerDefinition n c ds t s w = Some (Return tt, w') ->
  JsMap.get (services (this w')) n
  = Some (Definition_ c n (default [] ds) (default_arg t VNull) VUndefined).
Proof.
  rewrite registerDefinition_result.
  destruct (JsMap.has (parameters (this w)) n); [done|].
  destruct (JsMap.has (services (this w)) n); [done|].
  intros [= <-]. simpl. apply get_set_eq.
Qed.

Lemma registerDefinition_drops_shared_witness :
  exists w',
    registerDefinition "Logger" Logger (Some []) VNull (VBool true) fresh_world
    = Some (Return tt, w')
    /\ (shared <$> JsMap.get (services (this w')) "Logger") = Some VUndefined.
Proof.
  eexists. split; [reflexivity|].
  rewrite (registerDefinition_drops_shared "Logger" Logger (Some []) VNull
             (VBool true) fresh_world _ eq_refl).
  reflexivity.
Defined.

(** ** Tagged services *)

(** C7.  [getTaggedService(t)] always returns, and leaves the world as it
    is.  The sequence it returns holds exactly the stored definitions
    whose tag is [t] ([null] as any other value), in the order in which
    the service registry iterates, which is the order of registration: a
    definition registered later comes after all the earlier ones.  Where
    no definition has the tag the sequence is empty. *)
Theorem getTaggedService_exact t w :
  exists l,
    getTaggedService t w = Some (Return l, w)
    /\ (forall d, d ∈ l <-> d ∈ JsMap.values (services (this w)) /\ tag d = t)
    /\ l `sublist_of` JsMap.values (services (this w))
    /\ ((forall d, d ∈ JsMap.values (services (this w)) -> tag d <> t) -> l = [])
    /\ (forall n c ds tg s w1,
          registerDefinition n c ds tg s w = Some (Return tt, w1) ->
          getTaggedService t w1
          = Some (Return
                    (l ++ if decide (default_arg tg VNull = t)
                          then [Definition_ c n (default [] ds)
                                  (default_arg tg VNull) VUndefined]
                          else [])%list, w1)).
Proof.
  assert (Htag : forall d, has_tag t d <-> tag d = t).
  { intros d. unfold has_tag, strict_equal. apply bool_decide_eq_true. }
  exists (filter (has_tag t) (JsMap.values (services (this w)))).
  split; [done|]. split; [|split; [|split]].
  - intros d. rewrite list_elem_of_filter, Htag. tauto.
  - apply sublist_filter.
  - intros Hnone. induction (JsMap.values _) as [|d l IH]; [done|].
    rewrite filter_cons_False.
    + apply IH. intros d' Hd'. apply Hnone. by right.
    + rewrite Htag. apply Hnone. left.
  - intros n c ds tg s w1. rewrite registerDefinition_result.
    destruct (JsMap.has (parameters (this w)) n); [done|].
    destruct (JsMap.has (services (this w)) n) eqn:Hs; [done|].
    intros [= <-]. unfold getTaggedService, bind, get_this, ret. simpl.
    rewrite set_fresh by by apply has_false.
    unfold JsMap.values. rewrite fmap_app, filter_app. simpl.
    do 3 f_equal. 
    destruct (decide (default_arg tg VNull = t)) as [Ht|Ht].
    + by rewrite filter_cons_True by by apply Htag.
    + by rewrite filter_cons_False by by rewrite Htag.
Qed.

(** ** What [fetch] leaves behind *)

#[local] Instance cache_frame_preorder : PreOrder cache_frame.
Proof.
  split.
  - intros w. split; [done|]. intros k v Hk. by left.
  - intros w1 w2 w3 [Hs1 Hc1] [Hs2 Hc2]. split; [congruence|].
    intros k v Hk. destruct (Hc1 _ _ Hk) as [Hk2|Hd]; [|by right].
    destruct (Hc2 _ _ Hk2) as [Hk3|Hd]; [by left|right]. by rewrite <- Hs1.
Qed.







(** ** Parameters and missing keys *)

Lemma fetch_parameter global_name depth n v w :
  JsMap.has (services (this w)) n = false ->
  JsMap.get (parameters (this w)) n = Some v ->
  fetch global_name (S depth) n w = Some (Return v, w).
Proof.
  intros Hs Hp. simpl. unfold bind, get_this. rewrite Hs.
  assert (JsMap.has (parameters (this w)) n = true) as ->.
  { apply has_true. eauto. }
  by rewrite Hp.
Qed.

Lemma fetch_missing global_name depth n w :
  JsMap.has (parameters (this w)) n = false ->
  JsMap.has (services (this w)) n = false ->
  fetch global_name (S depth) n w = Some (Throw (ContainerNotFoundError n), w).
Proof. intros Hp Hs. simpl. unfold bind, get_this. by rewrite Hs, Hp. Qed.

Lemma array_map_throws (R : relation world) `{!PreOrder R}
    {A B} (f : A -> M B) l w e w' :
  (forall x, respects R (f x)) ->
  array_map f l w = Some (Throw e, w') ->
  exists x w1, x ∈ l /\ R w w1 /\ f x w1 = Some (Throw e, w').
Proof.
  intros Hf. revert w. induction l as [|x l IH]; intros w H; simpl in H.
  - by inv_M.
  - apply bind_Some in H as [(e' & H & [= <-])|(y & w1 & Hy & H)].
    + exists x, w. split; [left|]. by split.
    + apply bind_Some in H as [(e' & H & [= <-])|(ys & w2 & Hys & H)];
        [|by inv_M].
      destruct (IH _ H) as (x' & w3 & Hx' & HR & Hthrow).
      exists x', w3. split; [by right|]. split; [|done].
      etrans; [by eapply Hf|done].
Qed.

(** The ways in which [resolve] throws. *)
Lemma resolve_throws global_name this_fetch d w e w' :
  (forall k, respects fetch_frame (this_fetch k)) ->
  resolve global_name this_fetch d w = Some (Throw e, w') ->
  e = ReferenceError "name"
  \/ (exists c, e = TypeError c)
  \/ (exists x, e = Thrown x)
  \/ (exists k w1, k ∈ dependencies d /\ fetch_frame w w1
                    /\ this_fetch k w1 = Some (Throw e, w')).
Proof.
  intros Hf H. unfold resolve, read_global_name in H.
  apply bind_Some in H as [(e' & H & [= <-])|(hit & w1 & Hhit & H)].
  { destruct (truthy _); [|by inv_M].
    destruct global_name; inv_M; auto. }
  assert (w1 = w) as ->.
  { destruct (truthy _); [|by inv_M]. destruct global_name; by inv_M. }
  destruct hit.
  { destruct global_name; inv_M; auto. }
  apply bind_Some in H as [(e' & H & [= <-])|(args & w2 & Hargs & H)].
  { right. right. right. by eapply (array_map_throws fetch_frame). }
  apply bind_Some in H as [(e' & H & [= <-])|(service & w3 & Hnew & H)].
  { apply new_inv in H
      as [(_ & [= ->] & _)|(f & _ & _ & _ & [(x & _ & [= ->])|(_ & [=])])];
      eauto. }
  destruct (truthy _); by inv_M.
Qed.

Lemma fetch_not_found global_name depth n w k w' :
  fetch global_name depth n w = Some (Throw (ContainerNotFoundError k), w') ->
  JsMap.has (parameters (this w)) k = false
  /\ JsMap.has (services (this w)) k = false.
Proof.
  revert n w. induction depth as [|depth IH]; intros n w H; simpl in H.
  - discriminate H.
  - apply bind_Some in H as [(e & H & _)|(c & w1 & Hc & H)];
      unfold get_this in *; simplify_eq.
    destruct (JsMap.has (services (this w1)) n) eqn:Hs.
    + destruct (JsMap.get (services (this w1)) n) as [d|]; [|by inv_M].
      apply resolve_throws in H as [?|[[c ?]|[[x ?]|(k' & w2 & _ & Hfr & H)]]];
        [done|done|done| |intros; apply fetch_respects_frame].
      destruct Hfr as (Hp' & Hs' & _). rewrite <- Hp', <- Hs'. by eapply IH.
    + destruct (JsMap.has (parameters (this w1)) n) eqn:Hp; by inv_M.
Qed.

(** C5.  In a world whose registries are disjoint (as they are in every
    reachable world): a key registered as a parameter with value [v] is
    fetched as [v] itself, with no change to the world, now and after
    any further steps of the client; a key that neither registry holds
    makes [fetch] throw [ContainerNotFoundError] with that key; and a
    [ContainerNotFoundError] that comes out of [fetch], from however
    deep in the resolution, always carries a key that neither registry
    holds. *)
Theorem fetch_parameter_or_not_found global_name w n :
  disjoint_registries (this w) ->
  (forall v, JsMap.get (parameters (this w)) n = Some v ->
     forall w', rtc (step global_name) w w' ->
     forall depth, fetch global_name (S depth) n w' = Some (Return v, w'))
  /\ (JsMap.has (parameters (this w)) n = false ->
      JsMap.has (services (this w)) n = false ->
      forall depth,
        fetch global_name (S depth) n w
        = Some (Throw (ContainerNotFoundError n), w))
  /\ (forall depth m k w',
        fetch global_name depth m w
        = Some (Throw (ContainerNotFoundError k), w') ->
        JsMap.has (parameters (this w)) k = false
        /\ JsMap.has (services (this w)) k = false).
Proof.
  intros Hdis. split; [|split].
  - intros v Hv w' Hsteps depth.
    pose proof (steps_disjoint _ _ _ Hsteps Hdis) as Hdis'.
    apply steps_extends in Hsteps as (Hp & _). apply Hp in Hv.
    apply fetch_parameter; [|done].
    destruct (JsMap.has (services (this w')) n) eqn:Hs; [|done].
    destruct (Hdis' n). split; [|done]. apply has_true. eauto.
  - intros Hp Hs depth. by apply fetch_missing.
  - intros depth m k w'. apply fetch_not_found.
Qed.

Lemma fetch_parameter_or_not_found_witness :
  disjoint_registries (this scenario)
  /\ fetch None 1 "db.host" scenario = Some (Return (VStr "localhost"), scenario)
  /\ fetch None 1 "db.port" scenario
     = Some (Throw (ContainerNotFoundError "db.port"), scenario).
Proof.
  assert (Hdis : disjoint_registries (this scenario)).
  { intros k [Hp Hs]. unfold JsMap.has in Hp, Hs.
    apply bool_decide_eq_true in Hp, Hs. simpl in Hp, Hs.
    repeat case_decide; simplify_eq; by destruct Hp, Hs. }
  destruct (fetch_parameter_or_not_found None scenario "db.host" Hdis)
    as (Hfetch & _).
  destruct (fetch_parameter_or_not_found None scenario "db.port" Hdis)
    as (_ & Hmiss & _).
  split; [exact Hdis|split].
  - apply (Hfetch (VStr "localhost") eq_refl scenario (rtc_refl _ _) 0).
  - apply (Hmiss eq_refl eq_refl 0).
Defined.

(** ** Construction *)

Lemma array_map_returns (f : string -> M val) l w vs w' :
  array_map f l w = Some (Return vs, w') <-> fetched_in_order f w l vs w'.
Proof.
  split.
  - revert w vs. induction l as [|x l IH]; intros w vs H; simpl in H.
    + inv_M. constructor.
    + apply bind_Some in H as [(e & _ & [=])|(y & w1 & Hy & H)].
      apply bind_Some in H as [(e & _ & [=])|(ys & w2 & Hys & H)].
      inv_M. econstructor; [done|by apply IH].
  - induction 1 as [|w0 d v w1 ds vs0 w2 Hd _ IH]; simpl; [done|].
    unfold bind. by rewrite Hd, IH.
Qed.

Lemma fetched_length f w ds vs w' :
  fetched_in_order f w ds vs w' -> length vs = length ds.
Proof. induction 1; simpl; auto. Qed.

Lemma fetched_respects (R : relation world) `{!PreOrder R} f w ds vs w' :
  (forall k, respects R (f k)) -> fetched_in_order f w ds vs w' -> R w w'.
Proof.
  intros Hf. induction 1 as [|w0 d v w1 ds vs0 w2 Hd _ IH]; [done|].
  etrans; [by eapply Hf|done].
Qed.

(** A dependency that is a parameter key arrives as the parameter's
    value, at the position of the key. *)
Lemma fetched_parameters global_name depth w ds vs w' :
  fetched_in_order (fetch global_name depth) w ds vs w' ->
  forall i k, ds !! i = Some k ->
    JsMap.has (services (this w)) k = false ->
    vs !! i = JsMap.get (parameters (this w)) k.
Proof.
  induction 1 as [|w0 d v w1 ds vs0 w2 Hd Hrest IH]; intros i k Hi Hk.
  - done.
  - destruct i as [|i]; simpl in *.
    + injection Hi as ->. destruct depth as [|depth]; [done|].
      simpl in Hd. unfold bind, get_this in Hd. rewrite Hk in Hd.
      destruct (JsMap.has (parameters (this w0)) k) eqn:Hp; [|done].
      apply has_true in Hp as [v' Hv']. rewrite Hv' in *. by inv_M.
    + apply fetch_respects_frame in Hd as (Hp & Hs & _).
      rewrite <- Hp. apply IH; [done|]. by rewrite Hs.
Qed.

(** What [resolve] has done when it returns without a cache hit. *)
Lemma resolve_returns global_name this_fetch d w v w' :
  cache_hit global_name (this w) d = false ->
  resolve global_name this_fetch d w = Some (Return v, w') ->
  exists f args w1,
    classname d = VFun f
    /\ fetched_in_order this_fetch w (dependencies d) args w1
    /\ v = construction_result (bodies w1 f args (heap w1)) (length (heap w1))
    /\ heap w' = (heap w1 ++ [Instance_ f args])%list
    /\ this w' = if truthy (shared d)
                 then with_cache (this w1)
                        (JsMap.set (cache (this w1)) (name d) v)
                 else this w1.
Proof.
  unfold cache_hit, resolve, read_global_name. intros Hmiss H.
  apply bind_Some in H as [(e & _ & [=])|(hit & w0 & Hhit & H)].
  assert (hit = false /\ w0 = w) as [-> ->].
  { destruct (truthy _); [|by inv_M].
    destruct global_name; inv_M. simpl in Hmiss. by rewrite Hmiss. }
  apply bind_Some in H as [(e & _ & [=])|(args & w1 & Hargs & H)].
  apply bind_Some in H as [(e & _ & [=])|(service & w2 & Hnew & H)].
  apply array_map_returns in Hargs.
  apply new_inv in Hnew
    as [(_ & [=] & _)|(f & Hc & _ & -> & [(x & _ & [=])|(_ & [= ->])])].
  exists f, args, w1. destruct (truthy _); inv_M; by repeat split.
Qed.

Lemma fetch_service_returns global_name depth n d w v w' :
  JsMap.get (services (this w)) n = Some d ->
  cache_hit global_name (this w) d = false ->
  fetch global_name (S depth) n w = Some (Return v, w') ->
  exists f args w1,
    classname d = VFun f
    /\ fetched_in_order (fetch global_name depth) w (dependencies d) args w1
    /\ v = construction_result (bodies w f args (heap w1)) (length (heap w1))
    /\ heap w' = (heap w1 ++ [Instance_ f args])%list
    /\ this w' = if truthy (shared d)
                 then with_cache (this w1)
                        (JsMap.set (cache (this w1)) (name d) v)
                 else this w1.
Proof.
  intros Hd Hmiss H. simpl in H. unfold bind at 1, get_this in H.
  assert (JsMap.has (services (this w)) n = true) as Hn.
  { apply has_true. eauto. }
  rewrite Hn, Hd in H.
  apply resolve_returns in H as (f & args & w1 & Hc & Hargs & Hv & Hrest);
    [|done].
  exists f, args, w1. split; [done|]. split; [done|]. split; [|done].
  eapply (fetched_respects fetch_frame) in Hargs as (_ & _ & _ & _ & Hb);
    [by rewrite <- Hb|intros; apply fetch_respects_frame].
Qed.

(** C6.  When [fetch] resolves a definition (not answering from the
    cache) and returns, the dependency keys have been fetched one after
    the other from the first to the last, and the definition's class
    has been constructed with the fetched values as arguments, the i-th
    value being the one fetched for the i-th key; the value returned is
    that of the construction (the object constructed, unless the
    constructor returns an object of its own).  In particular a
    dependency that is a parameter key puts the value of that parameter
    at its own position, so that reordering the keys reorders the
    arguments in the same way. *)
Theorem dependencies_passed_in_order global_name depth n d w v w' :
  JsMap.get (services (this w)) n = Some d ->
  cache_hit global_name (this w) d = false ->
  fetch global_name (S depth) n w = Some (Return v, w') ->
  exists f args w1,
    classname d = VFun f
    /\ fetched_in_order (fetch global_name depth) w (dependencies d) args w1
    /\ v = construction_result (bodies w f args (heap w1)) (length (heap w1))
    /\ heap w' !! length (heap w1) = Some (Instance_ f args)
    /\ length args = length (dependencies d)
    /\ (forall i k, dependencies d !! i = Some k ->
          JsMap.has (services (this w)) k = false ->
          args !! i = JsMap.get (parameters (this w)) k).
Proof.
  intros Hd Hmiss H.
  apply fetch_service_returns with (d := d) in H
    as (f & args & w1 & Hc & Hargs & -> & Hh & _); [|done..].
  exists f, args, w1. repeat split; try done.
  - rewrite Hh. by apply list_lookup_middle.
  - by eapply fetched_length.
  - by eapply fetched_parameters.
Qed.

Lemma dependencies_passed_in_order_witness :
  exists v w',
    fetch None 2 "App" scenario = Some (Return v, w')
    /\ exists f args w1,
         App = VFun f
         /\ fetched_in_order (fetch None 1) scenario ["Logger"; "db.host"]
              args w1
         /\ v = VObj (length (heap w1))
         /\ heap w' !! length (heap w1) = Some (Instance_ f args)
         /\ length args = 2
         /\ (forall i k, ["Logger"; "db.host"] !! i = Some k ->
               JsMap.has (services (this scenario)) k = false ->
               args !! i = JsMap.get (parameters (this scenario)) k).
Proof.
  eexists _, _. split; [vm_compute; reflexivity|].
  apply (dependencies_passed_in_order None 1 "App"
           (Definition_ App "App" ["Logger"; "db.host"] VNull VUndefined)
           scenario).
  - reflexivity.
  - reflexivity.
  - vm_compute. reflexivity.
Defined.

(** ** Resolution without the [shared] property *)

(** [resolve] on a definition whose [shared] is not truthy: the
    dependencies, then [new], and nothing else. *)
Lemma resolve_unshared global_name this_fetch d w :
  truthy (shared d) = false ->
  resolve global_name this_fetch d w
  = match array_map this_fetch (dependencies d) w with
    | None => None
    | Some (Throw e, w1) => Some (Throw e, w1)
    | Some (Return args, w1) => new (classname d) args w1
    end.
Proof.
  intros Hsh. unfold resolve. rewrite Hsh. unfold bind at 1. simpl.
  unfold bind at 1.
  destruct (array_map _ _ w) as [[[args|e] w1]|]; [|done..].
  unfold bind, ret. by destruct (new _ _ _) as [[[v|e] w2]|].
Qed.

Lemma fetch_service global_name depth n d w :
  JsMap.get (services (this w)) n = Some d ->
  fetch global_name (S depth) n w
  = resolve global_name (fetch global_name depth) d w.
Proof.
  intros Hd. simpl. unfold bind at 1, get_this.
  assert (JsMap.has (services (this w)) n = true) as ->.
  { apply has_true. eauto. }
  by rewrite Hd.
Qed.

(** [new] on a constructor whose body does not throw. *)
Lemma new_returns f args w :
  fn_new f = true ->
  (forall x, bodies w f args (heap w) <> Throws x) ->
  new (VFun f) args w
  = Some (Return (construction_result (bodies w f args (heap w))
                    (length (heap w))),
          MkWorld (this w) (heap w ++ [Instance_ f args]) (bodies w)).
Proof.
  intros Hnew Hb. unfold new. rewrite Hnew.
  destruct (bodies w f args (heap w)) as [|o|x]; [done..|]. by destruct (Hb x).
Qed.

(** ** Every registered service is constructed at every fetch *)

Lemma reachable_steps global_name w w' :
  reachable global_name w -> rtc (step global_name) w w' ->
  reachable global_name w'.
Proof. intros (h & b & H) Hsteps. exists h, b. by etrans. Qed.

Lemma reachable_call global_name k w w' :
  reachable global_name w -> exec global_name k w = Some w' ->
  reachable global_name w'.
Proof.
  intros Hw Hk. eapply reachable_steps; [done|]. by eapply rtc_once, step_call.
Qed.

Lemma reachable_fetch_service global_name w n d depth v w' :
  reachable global_name w ->
  JsMap.get (services (this w)) n = Some d ->
  fetch global_name (S depth) n w = Some (Return v, w') ->
  exists f args w1 a,
    classname d = VFun f /\ a = length (heap w1)
    /\ fetched_in_order (fetch global_name depth) w (dependencies d) args w1
    /\ heap w !! a = None
    /\ heap w' !! a = Some (Instance_ f args)
    /\ v = construction_result (bodies w f args (heap w1)) a
    /\ this w' = this w
    /\ cache (this w') = [].
Proof.
  intros Hw Hd H. apply reachable_plain in Hw as [Hpl Hcache].
  destruct (Hpl _ _ Hd) as [Hsh _].
  apply fetch_service_returns with (d := d) in H
    as (f & args & w1 & Hc & Hargs & -> & Hh & Hthis);
    [|done|by unfold cache_hit; rewrite Hsh].
  rewrite Hsh in Hthis. simpl in Hthis.
  assert (this w1 = this w) as Hsame.
  { eapply (fetched_respects plain_same); [|done..].
    intros k. apply fetch_plain_same. }
  assert (heap w `prefix_of` heap w1) as Hprefix.
  { eapply (fetched_respects fetch_frame) in Hargs as (_ & _ & _ & Hpre & _);
      [done|]. intros k. apply fetch_respects_frame. }
  exists f, args, w1, (length (heap w1)). repeat split; try done.
  - apply lookup_ge_None. by apply prefix_length.
  - rewrite Hh. by apply list_lookup_middle.
  - congruence.
  - congruence.
Qed.

(** ** The call depth *)

Lemma array_map_mono f g l w r :
  fetch_le f g -> array_map f l w = Some r -> array_map g l w = Some r.
Proof.
  intros Hfg. revert w r.
  induction l as [|x l IH]; intros w r; simpl; [done|].
  unfold bind. destruct (f x w) as [[[y|e] w1]|] eqn:Hx; [| |done].
  - rewrite (Hfg _ _ _ Hx).
    destruct (array_map f l w1) as [[[ys|e] w2]|] eqn:Hl; [| |done].
    + by rewrite (IH _ _ Hl).
    + by rewrite (IH _ _ Hl).
  - by rewrite (Hfg _ _ _ Hx).
Qed.

Lemma bind_mono_r {A B} (m : M A) (k k' : A -> M B) w r :
  (forall a w1, k a w1 = Some r -> k' a w1 = Some r) ->
  bind m k w = Some r -> bind m k' w = Some r.
Proof. intros Hk. unfold bind. destruct (m w) as [[[a|e] w1]|]; auto. Qed.

Lemma bind_mono_l {A B} (m m' : M A) (k : A -> M B) w r :
  (forall r', m w = Some r' -> m' w = Some r') ->
  bind m k w = Some r -> bind m' k w = Some r.
Proof.
  intros Hm. unfold bind. destruct (m w) as [r'|]; [|done].
  by rewrite (Hm r' eq_refl).
Qed.

Lemma resolve_mono global_name f g d w r :
  fetch_le f g ->
  resolve global_name f d w = Some r -> resolve global_name g d w = Some r.
Proof.
  intros Hfg. unfold resolve. apply bind_mono_r. intros [] w1; [done|].
  apply bind_mono_l. intros r'. by apply array_map_mono.
Qed.

(** A deeper budget changes nothing for a call that came back. *)
Lemma fetch_mono global_name depth depth' :
  depth <= depth' ->
  fetch_le (fetch global_name depth) (fetch global_name depth').
Proof.
  revert depth'. induction depth as [|depth IH]; intros depth' Hle n w r.
  - done.
  - destruct depth' as [|depth']; [lia|]. simpl. unfold bind, get_this.
    destruct (JsMap.has (services (this w)) n); [|done].
    destruct (JsMap.get (services (this w)) n); [|done].
    apply resolve_mono, IH. lia.
Qed.

Lemma fetched_mono f g w ds vs w' :
  fetch_le f g -> fetched_in_order f w ds vs w' -> fetched_in_order g w ds vs w'.
Proof.
  intros Hfg. induction 1; econstructor; eauto.
Qed.

(** On a cycle no budget is enough. *)
Lemma cyclic_fetch_overflows global_name depth k :
  k = "A" \/ k = "B" -> fetch global_name depth k cyclic_world = None.
Proof.
  revert k. induction depth as [|depth IH]; intros k Hk; [done|].
  destruct Hk as [-> | ->]; simpl; unfold bind at 1; simpl;
    unfold resolve; simpl; unfold bind at 1; simpl; do 2 unfold bind at 1;
    rewrite IH; auto.
Qed.

(** A resolvable key is fetched within some depth, in any world whose
    stored definitions are the ones registration makes and in which no
    constructor body throws. *)
Lemma fetch_resolvable global_name c n :
  stored_definitions_plain c ->
  resolvable c n ->
  forall w, this w = c -> never_throws (bodies w) ->
    exists depth v w', fetch global_name depth n w = Some (Return v, w')
                       /\ this w' = c.
Proof.
  intros Hpl. induction 1 as [n Hs Hp|n d f Hd Hc Hnew Hdeps IH];
    intros w <- Hb.
  - apply has_true in Hp as [v Hv].
    exists 1, v, w. split; [by apply fetch_parameter|done].
  - assert (exists depth args w1,
              fetched_in_order (fetch global_name depth) w (dependencies d)
                args w1 /\ this w1 = this w /\ bodies w1 = bodies w)
      as (depth & args & w1 & Hargs & Hw1 & Hb1).
    { clear Hdeps Hd Hc. revert w Hpl IH Hb.
      induction (dependencies d) as [|k ks IHks]; intros w Hpl IH Hb.
      - exists 0, [], w. split; [constructor|done].
      - destruct (IH k ltac:(left) w eq_refl Hb) as (d1 & v & w1 & Hk & Hw1).
        pose proof (fetch_respects_frame _ _ _ _ _ _ Hk)
          as (_ & _ & _ & _ & Hb1).
        destruct (IHks w1) as (d2 & vs & w2 & Hks & Hw2 & Hb2).
        { by rewrite Hw1. }
        { rewrite Hw1. intros k' Hk'. apply IH. by right. }
        { by rewrite Hb1. }
        exists (d1 `max` d2), (v :: vs), w2.
        split; [|split; congruence].
        econstructor.
        + eapply fetch_mono; [|done]. lia.
        + eapply fetched_mono; [|done]. apply fetch_mono. lia. }
    destruct (Hpl _ _ Hd) as [Hsh _].
    eexists (S depth), _, _.
    rewrite (fetch_service _ _ _ _ _ Hd), resolve_unshared by by rewrite Hsh.
    apply array_map_returns in Hargs. rewrite Hargs, Hc.
    rewrite new_returns; [split; [reflexivity|done]|done|].
    intros x. rewrite Hb1. apply Hb.
Qed.

(** A service stored by a registration, with any [shared] argument
    whatever, in any world the client reaches afterwards.  No fetch of
    it puts anything in the cache.  Each fetch that returns has fetched
    the dependencies again and run the constructor on an object that did
    not exist before, and returns the value of that construction.  Where
    the body of the class is an ordinary one, that value is the new
    object and no later fetch returns it again. *)
Lemma registered_service_always_fresh global_name w0 n r c ds s w1 w :
  reachable global_name w0 ->
  registers_service r c ds s ->
  perform n r w0 = Some (Return tt, w1) ->
  rtc (step global_name) w1 w ->
  (forall depth o w',
     fetch global_name depth n w = Some (o, w') ->
     this w' = this w /\ cache (this w') = [])
  /\ (forall depth v w',
        fetch global_name (S depth) n w = Some (Return v, w') ->
        exists f args w_args a,
          c = VFun f /\ a = length (heap w_args)
          /\ fetched_in_order (fetch global_name depth) w (default [] ds)
               args w_args
          /\ heap w !! a = None
          /\ heap w' !! a = Some (Instance_ f args)
          /\ v = construction_result (bodies w f args (heap w_args)) a
          /\ ((forall args' h, bodies w f args' h = Completes) ->
              v = VObj a
              /\ forall w2 depth2 v2 w2',
                   rtc (step global_name) w' w2 ->
                   fetch global_name (S depth2) n w2 = Some (Return v2, w2') ->
                   v2 <> v)).
Proof.
  intros Hw0 Hr Hperf Hsteps.
  assert (Hw1 : reachable global_name w1).
  { eapply (reachable_call _ (CallRegistration n r)); [done|].
    simpl. unfold after. by rewrite Hperf. }
  pose proof (reachable_steps _ _ _ Hw1 Hsteps) as Hw.
  assert (registerDefinition n c ds
            (match r with
             | ByRegister _ _ t _ | ByRegisterDefinition _ _ t _ => t
             | ByRegisterParameter _ => VUndefined
             end) s w0 = Some (Return tt, w1)) as Hreg.
  { destruct Hr as [[tg ->]|(tg & -> & Hc)]; simpl in *; [done|].
    by rewrite register_result, Hc in Hperf. }
  apply registerDefinition_stored in Hreg as Hd1.
  pose proof (steps_extends _ _ _ Hsteps) as (_ & Hkeep & _).
  pose proof (Hkeep _ _ Hd1) as Hd.
  split.
  - intros depth o w' H. destruct (reachable_plain _ _ Hw) as [Hpl Hcache].
    apply fetch_plain_same in H. rewrite (H Hpl). by split.
  - intros depth v w' H.
    pose proof (fetch_respects_frame _ _ _ _ _ _ H) as (_ & Hs' & _ & _ & Hb').
    destruct (reachable_fetch_service _ _ _ _ _ _ _ Hw Hd H)
      as (f & args & w_args & a & Hf & -> & Hargs & Hnone & Hsome & -> & _).
    simpl in Hf, Hargs.
    exists f, args, w_args, (length (heap w_args)).
    do 6 (split; [done|]). intros Hord. split; [by rewrite Hord|].
    intros w2 depth2 v2 w2' Hsteps2 H2. rewrite (Hord args (heap w_args)).
    simpl.
    assert (Hw2 : reachable global_name w2).
    { eapply reachable_steps; [|done].
      eapply (reachable_call _ (CallFetch (S depth) n)); [done|].
      unfold exec, after. by rewrite H. }
    pose proof (steps_extends _ _ _ Hsteps2) as (_ & Hkeep2 & Hpre2 & Hb2).
    rewrite <- Hs' in Hd. apply Hkeep2 in Hd.
    destruct (reachable_fetch_service _ _ _ _ _ _ _ Hw2 Hd H2)
      as (f2 & args2 & w_args2 & a2 & Hf2 & -> & _ & Hnone2 & _ & -> & _).
    simpl in Hf2. rewrite Hf in Hf2. injection Hf2 as <-.
    rewrite Hb2, Hb', Hord. simpl.
    intros [= Heq]. rewrite Heq in Hnone2.
    eapply prefix_lookup_Some in Hsome; [|done]. congruence.
Qed.

(** C9.  A service stored with [shared = false], by [register] or by
    [registerDefinition], in any world the client reaches afterwards.
    Whatever the outcome of a fetch of it, nothing is put in the cache.
    Each fetch that returns has fetched the dependencies again on that
    call and has run the constructor anew, on an object that did not
    exist before the call, and returns the value of that construction.
    Where the body of the class is an ordinary one, that value is the
    new object, which no later fetch of the key returns again.  And
    where no constructor body throws, a fetch of the key returns as soon
    as the key is resolvable (nothing it needs is missing and it is on
    no dependency cycle). *)
Theorem transient_service_constructed_anew global_name w0 n r c ds w1 w :
  reachable global_name w0 ->
  registers_service r c ds (VBool false) ->
  perform n r w0 = Some (Return tt, w1) ->
  rtc (step global_name) w1 w ->
  (forall depth o w',
     fetch global_name depth n w = Some (o, w') ->
     this w' = this w /\ cache (this w') = [])
  /\ (forall depth v w',
        fetch global_name (S depth) n w = Some (Return v, w') ->
        exists f args w_args a,
          c = VFun f /\ a = length (heap w_args)
          /\ fetched_in_order (fetch global_name depth) w (default [] ds)
               args w_args
          /\ heap w !! a = None
          /\ heap w' !! a = Some (Instance_ f args)
          /\ v = construction_result (bodies w f args (heap w_args)) a
          /\ ((forall args' h, bodies w f args' h = Completes) ->
              v = VObj a
              /\ forall w2 depth2 v2 w2',
                   rtc (step global_name) w' w2 ->
                   fetch global_name (S depth2) n w2 = Some (Return v2, w2') ->
                   v2 <> v))
  /\ (never_throws (bodies w) -> resolvable (this w) n ->
      exists depth v w', fetch global_name depth n w = Some (Return v, w')).
Proof.
  intros Hw0 Hr Hperf Hsteps.
  destruct (registered_service_always_fresh _ _ _ _ _ _ _ _ _
              Hw0 Hr Hperf Hsteps) as [Hcache Hfetch].
  split; [done|]. split; [done|].
  intros Hb Hres.
  assert (reachable global_name w) as Hw.
  { eapply reachable_steps; [|done].
    eapply (reachable_call _ (CallRegistration n r)); [done|].
    simpl. unfold after. by rewrite Hperf. }
  apply reachable_plain in Hw as [Hpl _].
  destruct (fetch_resolvable global_name _ _ Hpl Hres w eq_refl Hb)
    as (depth & v & w' & H & _).
  eauto.
Qed.

Lemma transient_service_constructed_anew_witness :
  perform "Mailer"
    (ByRegister Mailer (Some ["Logger"; "db.host"]) VUndefined (VBool false))
    scenario
  = Some (Return tt, mailer_world)
  /\ fetch None 2 "Mailer" mailer_world
     = Some (Return (VObj 1),
             World (this mailer_world)
               [Instance_ (Func 1 "Logger" true) [];
                Instance_ (Func 3 "Mailer" true) [VObj 0; VStr "localhost"]])
  /\ (exists args w_args,
        fetched_in_order (fetch None 1) mailer_world ["Logger"; "db.host"]
          args w_args
        /\ heap mailer_world !! length (heap w_args) = None
        /\ VObj 1 = VObj (length (heap w_args))
        /\ forall w2 depth2 v2 w2',
             rtc (step None)
               (World (this mailer_world)
                  [Instance_ (Func 1 "Logger" true) [];
                   Instance_ (Func 3 "Mailer" true)
                     [VObj 0; VStr "localhost"]]) w2 ->
             fetch None (S depth2) "Mailer" w2 = Some (Return v2, w2') ->
             v2 <> VObj 1)
  /\ (exists depth v w',
        fetch None depth "Mailer" mailer_world = Some (Return v, w')).
Proof.
  destruct (transient_service_constructed_anew None scenario "Mailer"
              (ByRegister Mailer (Some ["Logger"; "db.host"]) VUndefined
                 (VBool false))
              Mailer (Some ["Logger"; "db.host"]) mailer_world mailer_world
              scenario_reachable
              (or_intror (ex_intro _ VUndefined (conj eq_refl eq_refl)))
              eq_refl (rtc_refl _ _))
    as (_ & Hfetch & Htotal).
  split; [reflexivity|]. split; [reflexivity|]. split.
  - destruct (Hfetch 1 (VObj 1) _ eq_refl)
      as (f & args & w_args & a & _ & -> & Hargs & Hnone & _ & _ & Hord).
    destruct (Hord (fun _ _ => eq_refl)) as [Hv Hlater].
    exists args, w_args. split; [exact Hargs|]. split; [exact Hnone|].
    split; [exact Hv|exact Hlater].
  - apply Htotal.
    + intros f args h x. discriminate.
    + apply (resolvable_service _ "Mailer"
               (Definition_ Mailer "Mailer" ["Logger"; "db.host"] VNull
                  VUndefined) (Func 3 "Mailer" true)); [reflexivity..|].
      intros k Hk. apply elem_of_cons in Hk as [->|Hk].
      * apply (resolvable_service _ "Logger"
                 (Definition_ Logger "Logger" [] (VStr "core") VUndefined)
                 (Func 1 "Logger" true)); [reflexivity..|].
        intros k' Hk'. by apply elem_of_nil in Hk'.
      * apply list_elem_of_singleton in Hk as ->.
        by apply resolvable_parameter.
Defined.

(** The claim that each fetch of a service registered with
    [shared = false] returns a fresh, distinct instance fails for a
    class whose constructor returns an object of its own: the
    constructor runs at each fetch, and both fetches return the client's
    object. *)
Lemma transient_singleton_returned_again :
  let object := Instance_ (Func 8 "Object" true) [] in
  let single := Instance_ (Func 9 "Single" true) [] in
  register "Single" Single None VUndefined (VBool false) singleton_world
  = Some (Return tt, singleton_registered)
  /\ fetch None 1 "Single" singleton_registered
     = Some (Return (VObj 0),
             MkWorld (this singleton_registered) [object; single]
               singleton_bodies)
  /\ fetch None 1 "Single"
       (MkWorld (this singleton_registered) [object; single] singleton_bodies)
     = Some (Return (VObj 0),
             MkWorld (this singleton_registered) [object; single; single]
               singleton_bodies).
Proof. by repeat split. Qed.

(** ** The cache lookup of [resolve] *)

(** For a definition object that does carry a truthy [shared], the cache
    is consulted under the global [name], not under the definition's
    own: without such a global the lookup throws. *)
Lemma resolve_shared_unbound_name this_fetch d w :
  truthy (shared d) = true ->
  resolve None this_fetch d w = Some (Throw (ReferenceError "name"), w).
Proof. intros Hsh. unfold resolve. by rewrite Hsh. Qed.

(** With a global [name] (the empty string of a browser window) the
    instance is stored under the definition's key and looked up under
    the global one, so that the next call constructs again. *)
Lemma resolve_shared_wrong_key this_fetch :
  let d := Definition_ Logger "Logger" [] VNull (VBool true) in
  let logger := Instance_ (Func 1 "Logger" true) [] in
  resolve (Some "") this_fetch d fresh_world
  = Some (Return (VObj 0),
          World (Container [("Logger", VObj 0)] [] []) [logger])
  /\ resolve (Some "") this_fetch d
       (World (Container [("Logger", VObj 0)] [] []) [logger])
     = Some (Return (VObj 1),
             World (Container [("Logger", VObj 1)] [] []) [logger; logger]).
Proof. by split. Qed.

(** ** The scenario of the documentation, run *)

(** C1.  In the scenario, where [Logger] and [App] are registered with
    [shared] left to its default: the first [fetch("App")] constructs a
    [Logger] and an [App]; the second one constructs another [Logger]
    and another [App] and returns the latter, and the cache is empty
    throughout.  So the instance of the first fetch is not the one
    returned by the second. *)
Theorem shared_service_constructed_again global_name :
  let logger := Instance_ (Func 1 "Logger" true) [] in
  let app l := Instance_ (Func 2 "App" true) [VObj l; VStr "localhost"] in
  cache (this scenario) = []
  /\ fetch global_name 2 "App" scenario
     = Some (Return (VObj 1), World (this scenario) [logger; app 0])
  /\ fetch global_name 2 "App" (World (this scenario) [logger; app 0])
     = Some (Return (VObj 3),
             World (this scenario) [logger; app 0; logger; app 2]).
Proof. by repeat split. Qed.

(** * Further properties of the container *)

(** [array.map] stops at the first call that throws. *)
Lemma array_map_throws_at {A B} (f : A -> M B) pre x post w vs w1 e w' :
  array_map f pre w = Some (Return vs, w1) ->
  f x w1 = Some (Throw e, w') ->
  array_map f (pre ++ x :: post) w = Some (Throw e, w').
Proof.
  revert w vs. induction pre as [|y pre IH]; intros w vs Hpre Hx; simpl in *.
  - inv_M. unfold bind. by rewrite Hx.
  - apply bind_Some in Hpre as [(e' & _ & [=])|(v & w2 & Hy & Hpre)].
    apply bind_Some in Hpre as [(e' & _ & [=])|(vs' & w3 & Hpre & Hret)].
    inv_M. unfold bind at 1. rewrite Hy. unfold bind at 1.
    by rewrite (IH _ _ Hpre Hx).
Qed.

Lemma fetch_dependency_throws global_name depth n d pre k post vs w w1 e w2 :
  JsMap.get (services (this w)) n = Some d ->
  truthy (shared d) = false ->
  dependencies d = (pre ++ k :: post)%list ->
  fetched_in_order (fetch global_name depth) w pre vs w1 ->
  fetch global_name depth k w1 = Some (Throw e, w2) ->
  fetch global_name (S depth) n w = Some (Throw e, w2).
Proof.
  intros Hd Hsh Hdeps Hpre Hk.
  rewrite (fetch_service _ _ _ _ _ Hd), resolve_unshared, Hdeps by done.
  apply array_map_returns in Hpre.
  by rewrite (array_map_throws_at _ _ _ _ _ _ _ _ _ Hpre Hk).
Qed.

(** ** Errors while resolving *)

(** What one dependency throws comes out of [fetch] as it is, in the
    world of that throw: the dependencies after it are not fetched and
    the class is not constructed, while whatever the dependencies before
    it constructed stays. *)
Theorem dependency_error_propagates global_name depth n d pre k post vs
    w w1 e w2 :
  JsMap.get (services (this w)) n = Some d ->
  truthy (shared d) = false ->
  dependencies d = (pre ++ k :: post)%list ->
  fetched_in_order (fetch global_name depth) w pre vs w1 ->
  fetch global_name depth k w1 = Some (Throw e, w2) ->
  fetch global_name (S depth) n w = Some (Throw e, w2).
Proof. apply fetch_dependency_throws. Qed.

Lemma dependency_error_propagates_witness :
  fetch None 2 "Report" faulty_world
  = Some (Throw (ContainerNotFoundError "smtp.host"),
          World (this faulty_world) [Instance_ (Func 1 "Logger" true) []]).
Proof.
  apply (dependency_error_propagates None 1 "Report"
           (Definition_ App "Report" ["Logger"; "smtp.host"; "db.host"]
              VNull VUndefined)
           ["Logger"] "smtp.host" ["db.host"] [VObj 0] faulty_world
           (World (this faulty_world) [Instance_ (Func 1 "Logger" true) []]));
    try reflexivity.
  eapply fetched_cons; [vm_compute; reflexivity|apply fetched_nil].
Defined.

(** A service with a dependency key that neither registry holds: once
    the dependencies before it are fetched, [fetch] throws
    [ContainerNotFoundError] with that very key, not with the key of the
    service. *)
Theorem missing_dependency_reported global_name depth n d pre k post vs
    w w1 :
  JsMap.get (services (this w)) n = Some d ->
  truthy (shared d) = false ->
  dependencies d = (pre ++ k :: post)%list ->
  fetched_in_order (fetch global_name (S depth)) w pre vs w1 ->
  JsMap.has (parameters (this w)) k = false ->
  JsMap.has (services (this w)) k = false ->
  fetch global_name (S (S depth)) n w
  = Some (Throw (ContainerNotFoundError k), w1).
Proof.
  intros Hd Hsh Hdeps Hpre Hp Hs.
  eapply fetch_dependency_throws; [done..|].
  eapply (fetched_respects fetch_frame) in Hpre as (Hp1 & Hs1 & _);
    [|intros; apply fetch_respects_frame].
  apply fetch_missing; congruence.
Qed.

Lemma missing_dependency_reported_witness :
  fetch None 2 "Report" faulty_world
  = Some (Throw (ContainerNotFoundError "smtp.host"),
          World (this faulty_world) [Instance_ (Func 1 "Logger" true) []]).
Proof.
  apply (missing_dependency_reported None 0 "Report"
           (Definition_ App "Report" ["Logger"; "smtp.host"; "db.host"]
              VNull VUndefined)
           ["Logger"] "smtp.host" ["db.host"] [VObj 0] faulty_world
           (World (this faulty_world) [Instance_ (Func 1 "Logger" true) []]));
    try reflexivity.
  eapply fetched_cons; [vm_compute; reflexivity|apply fetched_nil].
Defined.

(** Neither [registerDefinition] nor [register] asks whether the class
    can be used with [new]: for a stored class that cannot (a value that
    is no function, or one such as a named arrow function, which
    [isConstructor] accepts), [fetch] fetches all the dependencies and
    then throws a [TypeError]. *)
Theorem unconstructible_class_throws global_name depth n d args w w1 :
  JsMap.get (services (this w)) n = Some d ->
  truthy (shared d) = false ->
  fetched_in_order (fetch global_name depth) w (dependencies d) args w1 ->
  constructible (classname d) = false ->
  fetch global_name (S depth) n w = Some (Throw (TypeError (classname d)), w1).
Proof.
  intros Hd Hsh Hargs Hc.
  rewrite (fetch_service _ _ _ _ _ Hd), resolve_unshared by done.
  apply array_map_returns in Hargs. rewrite Hargs. unfold new.
  destruct (classname d) as [| | | | |f|]; try done.
  simpl in Hc. by rewrite Hc.
Qed.

Lemma unconstructible_class_throws_witness :
  isConstructor Handler = true
  /\ fetch None 2 "Hook" faulty_world
     = Some (Throw (TypeError Handler), faulty_world).
Proof.
  split; [reflexivity|].
  apply (unconstructible_class_throws None 1 "Hook"
           (Definition_ Handler "Hook" ["db.host"] VNull VUndefined)
           [VStr "localhost"] faulty_world faulty_world);
    try reflexivity.
  eapply fetched_cons; [vm_compute; reflexivity|apply fetched_nil].
Defined.

(** ** Registering, then fetching *)

(** A value registered as a parameter, by [registerParameter] or by
    [register] when [isConstructor] rejects it, is what the next [fetch]
    of the key returns, with no change to the world. *)
Theorem parameter_round_trip global_name n v w w1 :
  registerParameter n v w = Some (Return tt, w1)
  \/ (isConstructor v = false
      /\ exists ds t s, register n v ds t s w = Some (Return tt, w1)) ->
  forall depth, fetch global_name (S depth) n w1 = Some (Return v, w1).
Proof.
  intros H depth.
  assert (registerParameter n v w = Some (Return tt, w1)) as Hreg.
  { destruct H as [H|(Hc & ds & t & s & H)]; [done|].
    by rewrite register_result, Hc in H. }
  rewrite registerParameter_result in Hreg.
  destruct (JsMap.has (parameters (this w)) n); [done|].
  destruct (JsMap.has (services (this w)) n) eqn:Hs; [done|].
  injection Hreg as <-. apply fetch_parameter; simpl; [done|].
  apply get_set_eq.
Qed.

Lemma parameter_round_trip_witness :
  fetch None 1 "callback"
    (World (Container [] [] [("callback", VFun (Func 7 "" true))]) [])
  = Some (Return (VFun (Func 7 "" true)),
          World (Container [] [] [("callback", VFun (Func 7 "" true))]) []).
Proof.
  apply (parameter_round_trip None "callback" (VFun (Func 7 "" true))
           fresh_world).
  right. split; [reflexivity|]. by exists None, VUndefined, VUndefined.
Defined.

Lemma array_map_parameters global_name depth ds w :
  (forall k, k ∈ ds ->
     JsMap.has (services (this w)) k = false
     /\ JsMap.has (parameters (this w)) k = true) ->
  array_map (fetch global_name (S depth)) ds w
  = Some (Return
            ((fun k => default VUndefined (JsMap.get (parameters (this w)) k))
               <$> ds), w).
Proof.
  induction ds as [|k ds IH]; intros Hds; [done|].
  destruct (Hds k ltac:(left)) as [Hs Hp].
  apply has_true in Hp as [v Hv].
  cbn [array_map]. unfold bind at 1.
  rewrite (fetch_parameter _ _ _ _ _ Hs Hv). unfold bind at 1.
  rewrite IH by (intros k' Hk'; apply Hds; by right).
  by rewrite fmap_cons, Hv.
Qed.

(** A class registered under a free key with dependency keys that are
    all parameters: the next [fetch] of the key is the construction of
    that class with the values of these parameters, in the order of the
    keys, as arguments.  Where the body of the constructor does not
    throw, the fetch allocates that one object and returns the value of
    the construction. *)
Theorem service_round_trip global_name n f ds tg s w :
  JsMap.has (parameters (this w)) n = false ->
  JsMap.has (services (this w)) n = false ->
  fn_name f <> "" ->
  (forall k, k ∈ ds ->
     JsMap.has (services (this w)) k = false
     /\ JsMap.has (parameters (this w)) k = true) ->
  let args :=
    (fun k => default VUndefined (JsMap.get (parameters (this w)) k)) <$> ds in
  exists w1,
    register n (VFun f) (Some ds) tg s w = Some (Return tt, w1)
    /\ forall depth,
         fetch global_name (S (S depth)) n w1 = new (VFun f) args w1
         /\ (fn_new f = true ->
             (forall x, bodies w f args (heap w) <> Throws x) ->
             fetch global_name (S (S depth)) n w1
             = Some (Return (construction_result (bodies w f args (heap w))
                               (length (heap w))),
                     MkWorld (this w1) (heap w ++ [Instance_ f args])
                       (bodies w))).
Proof.
  intros Hp Hs Hname Hds args.
  assert (isConstructor (VFun f) = true) as Hc.
  { apply isConstructor_spec. eauto. }
  rewrite register_result, Hc, registerDefinition_result, Hp, Hs.
  eexists. split; [reflexivity|]. intros depth.
  assert (fetch global_name (S (S depth)) n
            (MkWorld (with_services (this w)
                        (JsMap.set (services (this w)) n
                           (Definition_ (VFun f) n (default [] (Some ds))
                              (default_arg tg VNull) VUndefined)))
                     (heap w) (bodies w))
          = new (VFun f) args
              (MkWorld (with_services (this w)
                          (JsMap.set (services (this w)) n
                             (Definition_ (VFun f) n (default [] (Some ds))
                                (default_arg tg VNull) VUndefined)))
                       (heap w) (bodies w))) as Hfetch.
  { erewrite fetch_service by (simpl; apply get_set_eq).
    rewrite resolve_unshared by done. simpl dependencies.
    rewrite array_map_parameters; [done|].
    intros k Hk. destruct (Hds k Hk) as [Hsk Hpk]. simpl.
    rewrite has_set, Hsk. split; [|done].
    rewrite bool_decide_eq_false_2; [done|]. intros ->. congruence. }
  split; [exact Hfetch|]. intros Hnew Hb. rewrite Hfetch.
  by rewrite new_returns.
Qed.

Lemma service_round_trip_witness :
  exists w1,
    register "Mailer" Mailer (Some ["db.host"]) VUndefined VUndefined scenario
    = Some (Return tt, w1)
    /\ fetch None 2 "Mailer" w1
       = Some (Return (VObj 0),
               World (this w1)
                 [Instance_ (Func 3 "Mailer" true) [VStr "localhost"]]).
Proof.
  destruct (service_round_trip None "Mailer" (Func 3 "Mailer" true)
              ["db.host"] VUndefined VUndefined scenario)
    as (w1 & Hreg & Hfetch); try done.
  - intros k Hk. apply list_elem_of_singleton in Hk as ->. by split.
  - exists w1. split; [exact Hreg|].
    destruct (Hfetch 0) as [_ Hresult]. by apply Hresult.
Defined.

(** ** Dependency cycles *)

Lemma fetched_elem (R : relation world) `{!PreOrder R} f w ds vs w' k :
  (forall x, respects R (f x)) ->
  fetched_in_order f w ds vs w' -> k ∈ ds ->
  exists wi v wi', R w wi /\ f k wi = Some (Return v, wi').
Proof.
  intros Hf. induction 1 as [|w0 d v w1 ds vs0 w2 Hd _ IH]; intros Hk.
  - by apply elem_of_nil in Hk.
  - apply elem_of_cons in Hk as [->|Hk].
    + by exists w0, v, w1.
    + destruct (IH Hk) as (wi & v' & wi' & HR & Hfk).
      exists wi, v', wi'. split; [|done]. etrans; [by eapply Hf|done].
Qed.

(** [fetch] detects no cycle.  Among keys each of which is a service
    with a dependency among them again, no fetch ever returns a value,
    at whatever call depth. *)
Theorem dependency_cycle_never_returns global_name (P : string -> Prop) w :
  (forall k, P k ->
     exists d k', JsMap.get (services (this w)) k = Some d
                  /\ truthy (shared d) = false
                  /\ k' ∈ dependencies d /\ P k') ->
  forall depth n v w', P n ->
    fetch global_name depth n w <> Some (Return v, w').
Proof.
  intros Hcycle depth. revert w Hcycle.
  induction depth as [|depth IH]; intros w Hcycle n v w' Hn H; [done|].
  destruct (Hcycle n Hn) as (d & k' & Hd & Hsh & Hk' & HP).
  rewrite (fetch_service _ _ _ _ _ Hd), resolve_unshared in H by done.
  destruct (array_map _ _ w) as [[[args|e] w1]|] eqn:Hargs; [|done..].
  apply array_map_returns in Hargs.
  eapply (fetched_elem fetch_frame) in Hargs
    as (wi & v' & wi' & (_ & Hs & _) & Hfetch);
    [|intros; apply fetch_respects_frame|done].
  eapply (IH wi); [|done..]. by rewrite Hs.
Qed.

Lemma dependency_cycle_never_returns_witness :
  fetch None 8 "A" cyclic_world <> Some (Return (VObj 0), cyclic_world).
Proof.
  apply (dependency_cycle_never_returns None (fun k => k = "A" \/ k = "B")
           cyclic_world); [|by left].
  intros k [-> | ->].
  - exists (Definition_ (VFun (Func 4 "A" true)) "A" ["B"] VNull VUndefined), "B".
    repeat split; [apply list_elem_of_singleton; reflexivity|by right].
  - exists (Definition_ (VFun (Func 5 "B" true)) "B" ["A"] VNull VUndefined), "A".
    repeat split; [apply list_elem_of_singleton; reflexivity|by left].
Defined.

(** Where the first dependency of each of these services is among them
    again, the nesting of [fetch] calls has no end: no call depth gives
    an outcome, be it a value or an error. *)
Theorem dependency_cycle_overflows global_name (P : string -> Prop) w :
  (forall k, P k ->
     exists d k' rest, JsMap.get (services (this w)) k = Some d
                       /\ truthy (shared d) = false
                       /\ dependencies d = k' :: rest /\ P k') ->
  forall depth n, P n -> fetch global_name depth n w = None.
Proof.
  intros Hcycle depth.
  induction depth as [|depth IH]; intros n Hn; [done|].
  destruct (Hcycle n Hn) as (d & k' & rest & Hd & Hsh & Hdeps & HP).
  rewrite (fetch_service _ _ _ _ _ Hd), resolve_unshared, Hdeps by done.
  cbn [array_map]. unfold bind at 1. by rewrite (IH k' HP).
Qed.

Lemma dependency_cycle_overflows_witness :
  fetch None 8 "B" cyclic_world = None.
Proof.
  apply (dependency_cycle_overflows None (fun k => k = "A" \/ k = "B")
           cyclic_world); [|by right].
  intros k [-> | ->].
  - exists (Definition_ (VFun (Func 4 "A" true)) "A" ["B"] VNull VUndefined),
      "B", []. repeat split. by right.
  - exists (Definition_ (VFun (Func 5 "B" true)) "B" ["A"] VNull VUndefined),
      "A", []. repeat split. by left.
Defined.

(** ** The container in reachable worlds *)

(** In every world a client can reach the cache is empty, and a [fetch],
    whatever it resolves and however it ends, leaves all three maps of
    the container as they were. *)
Theorem nothing_is_ever_cached global_name w :
  reachable global_name w ->
  cache (this w) = []
  /\ forall depth n o w',
       fetch global_name depth n w = Some (o, w') -> this w' = this w.
Proof.
  intros Hw. apply reachable_plain in Hw as [Hpl Hc]. split; [done|].
  intros depth n o w' H. apply fetch_plain_same in H. by apply H.
Qed.

Lemma nothing_is_ever_cached_witness :
  reachable None scenario /\ cache (this scenario) = [].
Proof.
  split; [apply scenario_reachable|].
  apply (nothing_is_ever_cached None scenario). apply scenario_reachable.
Defined.

(** What [fetch] returns where no stored definition is shared. *)
Lemma fetch_returns_inv global_name depth n w v w' :
  stored_definitions_plain (this w) ->
  fetch global_name (S depth) n w = Some (Return v, w') ->
  (JsMap.has (services (this w)) n = false
   /\ JsMap.get (parameters (this w)) n = Some v /\ w' = w)
  \/ (exists d f args w1,
        JsMap.get (services (this w)) n = Some d
        /\ classname d = VFun f /\ fn_new f = true
        /\ fetched_in_order (fetch global_name depth) w (dependencies d) args w1
        /\ this w1 = this w
        /\ (forall x, bodies w1 f args (heap w1) <> Throws x)
        /\ v = construction_result (bodies w1 f args (heap w1))
                 (length (heap w1))
        /\ w' = MkWorld (this w1) (heap w1 ++ [Instance_ f args]) (bodies w1)).
Proof.
  intros Hpl H.
  destruct (JsMap.get (services (this w)) n) as [d|] eqn:Hd.
  - right. destruct (Hpl _ _ Hd) as [Hsh _].
    rewrite (fetch_service _ _ _ _ _ Hd), resolve_unshared in H
      by by rewrite Hsh.
    destruct (array_map _ _ w) as [[[args|e] w1]|] eqn:Hargs; [|done..].
    apply array_map_returns in Hargs.
    apply new_inv in H
      as [(_ & [=] & _)|(f & Hc & Hnew & -> & [(x & _ & [=])|(Hb & [= ->])])].
    exists d, f, args, w1. repeat split; try done.
    eapply (fetched_respects plain_same); [|done..].
    intros k. apply fetch_plain_same.
  - left. apply has_false in Hd. simpl in H. unfold bind, get_this in H.
    rewrite Hd in H.
    destruct (JsMap.has (parameters (this w)) n) eqn:Hp; [|done].
    apply has_true in Hp as [v' Hv']. rewrite Hv' in H. by inv_M.
Qed.

Lemma fetch_returns_resolvable global_name depth c n :
  stored_definitions_plain c ->
  forall w v w', this w = c ->
    fetch global_name depth n w = Some (Return v, w') -> resolvable c n.
Proof.
  intros Hpl. revert n. induction depth as [|depth IH];
    intros n w v w' <- H; [done|].
  apply fetch_returns_inv in H
    as [(Hs & Hv & _)|(d & f & args & w1 & Hd & Hc & Hnew & Hargs & _)];
    [| |done].
  - apply resolvable_parameter; [done|]. apply has_true. eauto.
  - eapply resolvable_service; [done..|]. intros k Hk.
    eapply (fetched_elem plain_same) in Hargs as (wi & v' & wi' & Hwi & Hfetch);
      [|intros; apply fetch_plain_same|done].
    eapply IH; [|done]. by apply Hwi.
Qed.

(** In a reachable world, a key for which [fetch] returns a value is
    resolvable: a parameter, or a service of a class that [new] accepts
    all of whose dependencies are resolvable.  Where no constructor body
    throws the converse holds as well: [fetch] returns a value for a
    key, at some call depth, exactly when the key is resolvable. *)
Theorem fetch_returns_iff_resolvable global_name w n :
  reachable global_name w ->
  ((exists depth v w', fetch global_name depth n w = Some (Return v, w')) ->
   resolvable (this w) n)
  /\ (never_throws (bodies w) ->
      (resolvable (this w) n <->
       exists depth v w', fetch global_name depth n w = Some (Return v, w'))).
Proof.
  intros Hw. apply reachable_plain in Hw as [Hpl _].
  assert ((exists depth v w',
             fetch global_name depth n w = Some (Return v, w')) ->
          resolvable (this w) n) as Hback.
  { intros (depth & v & w' & H). by eapply fetch_returns_resolvable. }
  split; [done|]. intros Hb. split; [|done].
  intros Hres.
  destruct (fetch_resolvable global_name _ _ Hpl Hres w eq_refl Hb)
    as (depth & v & w' & H & _).
  eauto.
Qed.

Lemma fetch_returns_iff_resolvable_witness :
  reachable None scenario
  /\ resolvable (this scenario) "App"
  /\ exists depth v w', fetch None depth "App" scenario = Some (Return v, w').
Proof.
  destruct (fetch_returns_iff_resolvable None scenario "App"
              scenario_reachable) as [Hback Hiff].
  assert (resolvable (this scenario) "App") as Hres.
  { apply Hback. eexists 2, _, _. vm_compute. reflexivity. }
  split; [apply scenario_reachable|]. split; [exact Hres|].
  apply Hiff; [|exact Hres]. intros f args h x. discriminate.
Defined.

(** The errors of [fetch] in a reachable world are of three kinds only:
    a [ContainerNotFoundError] for a key that neither registry holds,
    the [TypeError] of [new] on the class of a stored definition, and
    what the constructor body of such a class throws. *)
Theorem fetch_error_kinds global_name w depth n e w' :
  reachable global_name w ->
  fetch global_name depth n w = Some (Throw e, w') ->
  (exists k, e = ContainerNotFoundError k
             /\ JsMap.has (parameters (this w)) k = false
             /\ JsMap.has (services (this w)) k = false)
  \/ (exists k d, JsMap.get (services (this w)) k = Some d
                  /\ constructible (classname d) = false
                  /\ e = TypeError (classname d))
  \/ (exists k d f args h x,
        JsMap.get (services (this w)) k = Some d
        /\ classname d = VFun f
        /\ bodies w f args h = Throws x
        /\ e = Thrown x).
Proof.
  intros Hw. apply reachable_plain in Hw as [Hpl _].
  revert n w w' Hpl. induction depth as [|depth IH];
    intros n w w' Hpl H; [done|].
  destruct (JsMap.get (services (this w)) n) as [d|] eqn:Hd.
  - destruct (Hpl _ _ Hd) as [Hsh _].
    rewrite (fetch_service _ _ _ _ _ Hd), resolve_unshared in H
      by by rewrite Hsh.
    destruct (array_map _ _ w) as [[[args|e'] w1]|] eqn:Hargs; [| |done].
    + right.
      apply (respects_array_map fetch_frame) in Hargs
        as (_ & _ & _ & _ & Hb); [|intros; apply fetch_respects_frame].
      apply new_inv in H
        as [(Hc & [= ->] & _)|(f & Hc & _ & _ & [(x & Hx & [= ->])|(_ & [=])])].
      * left. by exists n, d.
      * right. exists n, d, f, args, (heap w1), x. by rewrite <- Hb.
    + injection H as <- <-.
      pose proof Hargs as Hframe.
      apply (respects_array_map fetch_frame) in Hframe
        as (_ & _ & _ & _ & _); [|intros; apply fetch_respects_frame].
      apply (array_map_throws fetch_frame) in Hargs
        as (k & wi & _ & (Hpi & Hsi & _ & _ & Hbi) & Hthrow);
        [|intros; apply fetch_respects_frame].
      apply IH in Hthrow; [|unfold stored_definitions_plain; by rewrite Hsi].
      by rewrite Hpi, Hsi, Hbi in Hthrow.
  - left. apply has_false in Hd. simpl in H. unfold bind, get_this in H.
    rewrite Hd in H.
    destruct (JsMap.has (parameters (this w)) n) eqn:Hp; inv_M. eauto.
Qed.

Lemma fetch_error_kinds_witness :
  reachable None scenario
  /\ fetch None 1 "db.port" scenario
     = Some (Throw (ContainerNotFoundError "db.port"), scenario)
  /\ JsMap.has (parameters (this scenario)) "db.port" = false.
Proof.
  split; [apply scenario_reachable|]. split; [reflexivity|].
  destruct (fetch_error_kinds None scenario 1 "db.port" _ _
              scenario_reachable eq_refl)
    as [(k & [= <-] & Hp & _)|[(k & d & _ & _ & [=])
                              |(k & d & f & args & h & x & _ & _ & _ & [=])]].
  exact Hp.
Defined.

(** ** Registries only grow *)

(** Once a key is registered it keeps its registry and its entry through
    everything a client does afterwards: a parameter keeps its value and
    never becomes a service, a service keeps its definition and never
    becomes a parameter. *)
Theorem registry_entries_permanent global_name w w' n :
  reachable global_name w ->
  rtc (step global_name) w w' ->
  (forall v, JsMap.get (parameters (this w)) n = Some v ->
     JsMap.get (parameters (this w')) n = Some v
     /\ JsMap.has (services (this w')) n = false)
  /\ (forall d, JsMap.get (services (this w)) n = Some d ->
        JsMap.get (services (this w')) n = Some d
        /\ JsMap.has (parameters (this w')) n = false).
Proof.
  intros Hw Hsteps.
  pose proof (steps_disjoint _ _ _ Hsteps (reachable_disjoint _ _ Hw)) as Hdis.
  apply steps_extends in Hsteps as (Hp & Hs & _).
  split.
  - intros v Hv. apply Hp in Hv. split; [done|].
    destruct (JsMap.has (services (this w')) n) eqn:Hn; [|done].
    destruct (Hdis n). split; [|done]. apply has_true. eauto.
  - intros d Hd. apply Hs in Hd. split; [done|].
    destruct (JsMap.has (parameters (this w')) n) eqn:Hn; [|done].
    destruct (Hdis n). split; [done|]. apply has_true. eauto.
Qed.

Lemma registry_entries_permanent_witness :
  JsMap.get (parameters (this scenario)) "db.host" = Some (VStr "localhost")
  /\ JsMap.has (services (this scenario)) "db.host" = false.
Proof.
  destruct (registry_entries_permanent None
              (World (Container [] [] [("db.host", VStr "localhost")]) [])
              scenario "db.host") as [Hp _].
  - apply (run_calls_reachable None (take 1 scenario_calls)). reflexivity.
  - apply (run_calls_steps None (drop 1 scenario_calls)). reflexivity.
  - apply Hp. reflexivity.
Defined.

(** A registration that goes through adds one entry, at the end of the
    iteration order of the registry it belongs to, and changes nothing
    else: not the other registry, not the cache, not the heap. *)
Theorem registration_adds_one_entry n r w w' :
  perform n r w = Some (Return tt, w') ->
  cache (this w') = cache (this w) /\ heap w' = heap w
  /\ ((registry_of r = "service"
       /\ parameters (this w') = parameters (this w)
       /\ exists d, services (this w') = (services (this w) ++ [(n, d)])%list
                    /\ name d = n /\ shared d = VUndefined)
      \/ (registry_of r = "parameter"
          /\ services (this w') = services (this w)
          /\ exists v,
               parameters (this w') = (parameters (this w) ++ [(n, v)])%list)).
Proof.
  intros H.
  match goal with |- ?G =>
    assert (Hd : forall v ds t s,
      registerDefinition n v ds t s w = Some (Return tt, w') ->
      (registry_of r = "service" -> G));
    [|assert (Hv : forall v, registerParameter n v w = Some (Return tt, w') ->
                (registry_of r = "parameter" -> G))]
  end.
  { intros v ds t s. rewrite registerDefinition_result.
    destruct (JsMap.has (parameters (this w)) n); [done|].
    destruct (JsMap.has (services (this w)) n) eqn:Hs; [done|].
    intros [= <-] Hr. simpl. repeat split. left. repeat split; [done|].
    eexists. rewrite set_fresh by by apply has_false. done. }
  { intros v. rewrite registerParameter_result.
    destruct (JsMap.has (parameters (this w)) n) eqn:Hp; [done|].
    destruct (JsMap.has (services (this w)) n); [done|].
    intros [= <-] Hr. simpl. repeat split. right. repeat split; [done|].
    eexists. by rewrite set_fresh by by apply has_false. }
  destruct r as [v ds t s|v ds t s|v]; simpl in H.
  - rewrite register_result in H. simpl in Hd, Hv |- *.
    destruct (isConstructor v);
      [exact (Hd _ _ _ _ H eq_refl)|exact (Hv _ H eq_refl)].
  - exact (Hd _ _ _ _ H eq_refl).
  - exact (Hv _ H eq_refl).
Qed.

Lemma registration_adds_one_entry_witness :
  exists w',
    perform "Mailer" (ByRegister Mailer None VUndefined VUndefined) scenario
    = Some (Return tt, w')
    /\ parameters (this w') = parameters (this scenario)
    /\ heap w' = heap scenario.
Proof.
  eexists. split; [vm_compute; reflexivity|].
  destruct (registration_adds_one_entry "Mailer"
              (ByRegister Mailer None VUndefined VUndefined) scenario _ eq_refl)
    as (_ & Hh & [(_ & Hp & _)|([=] & _)]).
  split; [exact Hp|exact Hh].
Defined.

(** ** Tagged services in reachable worlds *)

Lemma set_keys {V} (m : JsMap.t V) k v :
  JsMap.get m k = None -> (JsMap.set m k v).*1 = (m.*1 ++ [k])%list.
Proof. intros H. by rewrite set_fresh, fmap_app by done. Qed.

Lemma get_None_keys {V} (m : JsMap.t V) k :
  JsMap.get m k = None <-> k ∉ m.*1.
Proof.
  induction m as [|[k' v'] m IH]; simpl.
  - split; [intros _; apply not_elem_of_nil|done].
  - rewrite not_elem_of_cons. destruct (decide (k' = k)) as [->|Hne].
    + split; [done|]. by intros [? _].
    + rewrite IH. split; [by intros; split|by intros [_ ?]].
Qed.

Lemma get_elem_of {V} (m : JsMap.t V) k v :
  NoDup m.*1 -> (k, v) ∈ m -> JsMap.get m k = Some v.
Proof.
  induction m as [|[k' v'] m IH]; simpl; intros Hnd Hin.
  - by apply elem_of_nil in Hin.
  - apply NoDup_cons in Hnd as [Hk' Hnd].
    apply elem_of_cons in Hin as [[= -> ->]|Hin].
    + by rewrite decide_True.
    + rewrite decide_False; [by apply IH|]. intros ->.
      apply Hk'. apply list_elem_of_fmap. by exists (k, v).
Qed.

Lemma filter_none {A} (P : A -> Prop) `{!forall x, Decision (P x)} (l : list A) :
  (forall x, x ∈ l -> ~ P x) -> filter P l = [].
Proof.
  induction l as [|x l IH]; intros Hl; [done|].
  rewrite filter_cons_False by (apply Hl; left).
  apply IH. intros y Hy. apply Hl. by right.
Qed.

Lemma perform_well_keyed n r w w' :
  perform n r w = Some (Return tt, w') ->
  services_well_keyed (this w) -> services_well_keyed (this w').
Proof.
  intros Hperf [Hnd Htag].
  assert (Hd : forall v ds t s,
    registerDefinition n v ds t s w = Some (Return tt, w') ->
    services_well_keyed (this w')).
  { intros v ds t s. rewrite registerDefinition_result.
    destruct (JsMap.has (parameters (this w)) n); [done|].
    destruct (JsMap.has (services (this w)) n) eqn:Hs; [done|].
    apply has_false in Hs. intros [= <-].
    split; unfold with_services; cbn [this services].
    - rewrite set_keys by done. apply NoDup_app. split; [done|].
      split; [|apply NoDup_singleton].
      intros k Hk ->%list_elem_of_singleton. by apply get_None_keys in Hs.
    - intros k d. destruct (decide (n = k)) as [->|Hne].
      + rewrite get_set_eq. intros [= <-]. simpl. by destruct t.
      + rewrite get_set_ne by done. apply Htag. }
  assert (Hv : forall v,
    registerParameter n v w = Some (Return tt, w') ->
    services_well_keyed (this w')).
  { intros v. rewrite registerParameter_result.
    destruct (JsMap.has (parameters (this w)) n); [done|].
    destruct (JsMap.has (services (this w)) n); [done|].
    by intros [= <-]. }
  destruct r as [v ds t s|v ds t s|v]; simpl in Hperf;
    [|by eapply Hd|by eapply Hv].
  rewrite register_result in Hperf.
  destruct (isConstructor v); [by eapply Hd|by eapply Hv].
Qed.

Lemma step_well_keyed global_name w w' :
  step global_name w w' ->
  services_well_keyed (this w) -> services_well_keyed (this w').
Proof.
  intros [k w1 w2 Hk|f args w1] Hwk; [|done].
  destruct k as [n r|n|depth n|t]; simpl in Hk; unfold after in Hk.
  - destruct (perform n r w1) as [[[[]|e] w0]|] eqn:Hperf; [| |done].
    + injection Hk as <-. by eapply perform_well_keyed.
    + apply perform_cases in Hperf as [(? & _ & -> & _)|[[=] _]].
      by injection Hk as <-.
  - rewrite ensureUniqueness_result in Hk. by injection Hk as <-.
  - destruct (fetch _ _ _ _) as [[o w0]|] eqn:Hf; [|done]. injection Hk as <-.
    apply fetch_respects_frame in Hf as (_ & Hs & _).
    unfold services_well_keyed. by rewrite Hs.
  - unfold getTaggedService, bind, get_this, ret in Hk. by injection Hk as <-.
Qed.

Lemma steps_well_keyed global_name w w' :
  rtc (step global_name) w w' ->
  services_well_keyed (this w) -> services_well_keyed (this w').
Proof.
  induction 1 as [|w1 w2 w3 H _ IH]; [done|].
  intros Hwk. by eapply IH, step_well_keyed.
Qed.

Lemma reachable_well_keyed global_name w :
  reachable global_name w -> services_well_keyed (this w).
Proof.
  intros (h & b & H). eapply steps_well_keyed; [done|].
  split; [apply NoDup_nil_2|by intros k d].
Qed.

(** In a reachable world, each definition that [getTaggedService]
    returns is the one stored under its own [name], and none is returned
    twice. *)
Theorem tagged_definitions_by_name global_name t w :
  reachable global_name w ->
  exists l,
    getTaggedService t w = Some (Return l, w)
    /\ NoDup l
    /\ forall d, d ∈ l -> JsMap.get (services (this w)) (name d) = Some d.
Proof.
  intros Hw. pose proof (reachable_well_keyed _ _ Hw) as [Hnd _].
  apply reachable_plain in Hw as [Hpl _].
  assert (Hstored : forall k d, (k, d) ∈ services (this w) ->
            JsMap.get (services (this w)) k = Some d /\ name d = k).
  { intros k d Hin. pose proof (get_elem_of _ _ _ Hnd Hin) as Hget.
    split; [done|]. by apply (Hpl k d). }
  eexists. split; [reflexivity|]. split.
  - apply NoDup_filter. unfold JsMap.values.
    apply (NoDup_fmap_2_strong snd); [|by apply NoDup_fmap_1 in Hnd].
    intros [k1 d1] [k2 d2] H1 H2 Heq. simpl in Heq. subst d2.
    destruct (Hstored _ _ H1) as [_ <-]. by destruct (Hstored _ _ H2) as [_ <-].
  - intros d [_ Hd]%list_elem_of_filter. unfold JsMap.values in Hd.
    apply list_elem_of_fmap in Hd as ([k d'] & -> & Hin). simpl.
    destruct (Hstored _ _ Hin) as [Hget ->]. done.
Qed.

Lemma tagged_definitions_by_name_witness :
  reachable None scenario
  /\ getTaggedService (VStr "core") scenario
     = Some (Return [Definition_ Logger "Logger" [] (VStr "core") VUndefined],
             scenario)
  /\ JsMap.get (services (this scenario)) "Logger"
     = Some (Definition_ Logger "Logger" [] (VStr "core") VUndefined).
Proof.
  split; [apply scenario_reachable|]. split; [reflexivity|].
  destruct (tagged_definitions_by_name None (VStr "core") scenario
              scenario_reachable) as (l & Hl & _ & Hget).
  injection Hl as <-. apply (Hget _ ltac:(left)).
Defined.

(** A tag that is left out, or given as [undefined], is stored as
    [null]: in a reachable world no stored tag is [undefined], so that
    [getTaggedService] called with [undefined] (or with no argument)
    returns the empty sequence, while the services registered without a
    tag are found under [null]. *)
Theorem untagged_services_under_null global_name w :
  reachable global_name w ->
  getTaggedService VUndefined w = Some (Return [], w)
  /\ forall n c ds s w1,
       registerDefinition n c ds VUndefined s w = Some (Return tt, w1) ->
       exists l, getTaggedService VNull w1 = Some (Return l, w1)
                 /\ Definition_ c n (default [] ds) VNull VUndefined ∈ l.
Proof.
  intros Hw. apply reachable_well_keyed in Hw as [Hnd Htag]. split.
  - unfold getTaggedService, bind, get_this, ret. do 3 f_equal.
    apply filter_none. intros d Hd. unfold JsMap.values in Hd.
    apply list_elem_of_fmap in Hd as ([k d'] & -> & Hin).
    apply (get_elem_of _ _ _ Hnd), Htag in Hin.
    unfold has_tag, strict_equal. by rewrite bool_decide_eq_true.
  - intros n c ds s w1. rewrite registerDefinition_result.
    destruct (JsMap.has (parameters (this w)) n); [done|].
    destruct (JsMap.has (services (this w)) n); [done|].
    intros [= <-]. eexists. split; [reflexivity|].
    apply list_elem_of_filter. split; [done|]. simpl.
    eapply get_Some_values, get_set_eq.
Qed.

Lemma untagged_services_under_null_witness :
  reachable None scenario
  /\ getTaggedService VUndefined scenario = Some (Return [], scenario).
Proof.
  split; [apply scenario_reachable|].
  apply (untagged_services_under_null None scenario). apply scenario_reachable.
Defined.

(** ** Registering more keys *)




